(** * YASS plugin core (src/yass/models/plugin.py)

    A shallow embedding of [PluginMeta.__new__], [PluginBase.clean],
    [PluginBase.url] and [PluginBase.run], and the properties of the
    plugin execution protocol proved about them.

    - Python [str] values are [string]; the regular-expression engine
      works on their character lists.
    - The document source (PyQuery, the selector and [extract]) is a
      function from the number of the request, the URL and the selector
      to the texts found or an exception.
    - What a run prints, requests and sleeps is kept in a log of events.
    - [while True] is a step function iterated a given number of times;
      [run] gives a result when the loop has stopped within them.
    - The pattern of [clean] is embedded for target domains whose only
      regular-expression metacharacter is the dot; a domain whose
      parentheses leave the pattern unbalanced makes re.compile raise;
      other domains are marked as not embedded and nothing is stated
      about them. *)

From Stdlib Require Import Ascii String.
From stdpp Require Import base list strings gmap.

Local Open Scope string_scope.

(** ** Characters and strings *)

Definition newline : ascii := "010"%char.

Abbreviation chars := list_ascii_of_string.
Abbreviation str := string_of_list_ascii.

(** ** The fragment of Python's [re] used by [clean]

    Backtracking matcher in continuation-passing style: alternatives are
    tried in Python's priority order (greedy quantifiers take the longest
    repetition first, an optional item is tried present before absent) and
    the first complete match wins. *)

Inductive atom :=
| Lit (c : ascii)            (* a literal character *)
| AnyChar                    (* [.] without DOTALL: anything but a newline *)
| OneOf (cs : list ascii).   (* a character set [[...]] *)

Definition atom_match (a : atom) (c : ascii) : bool :=
  match a with
  | Lit x => Ascii.eqb x c
  | AnyChar => negb (Ascii.eqb c newline)
  | OneOf cs => existsb (Ascii.eqb c) cs
  end.

Inductive regex :=
| Empty
| Atom (a : atom)
| Star (a : atom)                   (* a*  greedy *)
| Plus (a : atom)                   (* a+  greedy *)
| Opt (r : regex)                   (* r?  greedy *)
| Cat (r1 r2 : regex)
| Group (name : string) (r : regex).

(** Captured groups, most recently closed first. *)
Definition groups := list (string * list ascii).

Fixpoint group (name : string) (g : groups) : option (list ascii) :=
  match g with
  | [] => None
  | (n, v) :: g' => if String.eqb n name then Some v else group name g'
  end.

Section Engine.
Context {R : Type}.

(** [a*] followed by [k]: consume as many characters as possible, give
    them back one at a time until [k] succeeds. *)
Fixpoint star_loop (a : atom) (s : list ascii)
    (k : list ascii -> option R) : option R :=
  match s with
  | c :: s' =>
      if atom_match a c then
        match star_loop a s' k with
        | Some r => Some r
        | None => k s
        end
      else k s
  | [] => k s
  end.

Fixpoint rmatch (r : regex) (s : list ascii) (g : groups)
    (k : list ascii -> groups -> option R) : option R :=
  match r with
  | Empty => k s g
  | Atom a =>
      match s with
      | c :: s' => if atom_match a c then k s' g else None
      | [] => None
      end
  | Star a => star_loop a s (fun s' => k s' g)
  | Plus a =>
      match s with
      | c :: s' =>
          if atom_match a c then star_loop a s' (fun s'' => k s'' g)
          else None
      | [] => None
      end
  | Opt r1 =>
      match rmatch r1 s g k with
      | Some x => Some x
      | None => k s g
      end
  | Cat r1 r2 => rmatch r1 s g (fun s' g' => rmatch r2 s' g' k)
  | Group name r1 =>
      rmatch r1 s g
        (fun s' g' => k s' ((name, take (length s - length s') s) :: g'))
  end.
End Engine.

(** [regexp.match(url)]: anchored at the start of the text, not at its
    end; the result is the table of groups of the first match. *)
Definition re_match (r : regex) (s : list ascii) : option groups :=
  rmatch r s [] (fun _ g => Some g).

Definition atoms (l : list atom) : regex :=
  foldr (fun a r => Cat (Atom a) r) Empty l.

Definition literal (s : string) : regex := atoms (map Lit (chars s)).

(** ** Compiling the pattern of [clean]

    The target domain is pasted into the pattern as it is, so it is read
    as a piece of regular expression. *)

Definition is_meta (c : ascii) : bool :=
  existsb (Ascii.eqb c) (chars ".^$*+?{}[]\|()").

Definition domain_atom (c : ascii) : option atom :=
  if Ascii.eqb c "."%char then Some AnyChar
  else if is_meta c then None
  else Some (Lit c).

(** A domain of ordinary characters and dots: one atom per character. *)
Fixpoint domain_atoms (d : list ascii) : option (list atom) :=
  match d with
  | [] => Some []
  | c :: d' =>
      match domain_atom c, domain_atoms d' with
      | Some a, Some l => Some (a :: l)
      | _, _ => None
      end
  end.

(** Ordinary characters, dots and parentheses only. *)
Definition paren_domain (d : list ascii) : bool :=
  forallb (fun c => Ascii.eqb c "("%char || Ascii.eqb c ")"%char
                    || Ascii.eqb c "."%char || negb (is_meta c)) d.

(** Parenthesis bookkeeping of the parser over the pasted domain:
    [depth] groups are open; [None] when a [)] closes nothing. *)
Fixpoint paren_scan (depth : nat) (d : list ascii) : option nat :=
  match d with
  | [] => Some depth
  | c :: d' =>
      if Ascii.eqb c "("%char then paren_scan (S depth) d'
      else if Ascii.eqb c ")"%char then
        match depth with
        | 0 => None
        | S n => paren_scan n d'
        end
      else paren_scan depth d'
  end.

(** The domain sits inside the group [(?P<subdomain> ... )]: one group is
    open where it starts, and the [)] of the template that follows it must
    leave none open. *)
Definition parens_balanced (d : list ascii) : bool :=
  match paren_scan 1 d with
  | Some 1 => true
  | _ => false
  end.

Inductive compiled :=
| Compiled (r : regex)
| ReError        (* re.compile raises sre_constants.error *)
| NotEmbedded.   (* a pattern beyond the fragment embedded here *)

(** The pattern of [clean] around the atoms of the domain: an optional
    group 1 (one or more characters, then "://"), the group "subdomain"
    (group 3, any characters, then the domain), one of "/" and "?", and
    any characters. *)
Definition scheme_re : regex :=
  Group "1" (Cat (Plus AnyChar) (literal "://")).

Definition host_re (dom : list atom) : regex :=
  Group "subdomain" (Cat (Group "3" (Star AnyChar)) (atoms dom)).

Definition rest_re : regex :=
  Cat (Atom (OneOf (chars "/?"))) (Star AnyChar).

Definition pattern (dom : list atom) : regex :=
  Cat (Opt scheme_re) (Cat (host_re dom) rest_re).

Definition re_compile (domain : string) : compiled :=
  match domain_atoms (chars domain) with
  | Some dom => Compiled (pattern dom)
  | None =>
      if paren_domain (chars domain) && negb (parens_balanced (chars domain))
      then ReError
      else NotEmbedded
  end.

(** ** [PluginBase.clean] *)

Inductive cleaned :=
| Cleaned (subdomains : list string)
| CleanRaises      (* the exception of re.compile leaves clean *)
| CleanNotEmbedded.

(** One turn of the [for url in urls] loop. *)
Definition clean_url (regexp : regex) (url : string) : list string :=
  match re_match regexp (chars url) with
  | Some g =>
      match group "subdomain" g with
      | Some (c :: h) => [str (c :: h)]
      | _ => []
      end
  | None => []
  end.

Definition clean (domain : string) (urls : list string) : cleaned :=
  match re_compile domain with
  | Compiled regexp => Cleaned (flat_map (clean_url regexp) urls)
  | ReError => CleanRaises
  | NotEmbedded => CleanNotEmbedded
  end.

(** ** Helpers and the per-plugin options *)

(** The comprehension of [without_duplicates] over a running set of the
    values seen so far. *)
Fixpoint unique_from (seen l : list string) : list string :=
  match l with
  | [] => []
  | x :: l' =>
      if bool_decide (x ∈ seen) then unique_from seen l'
      else x :: unique_from (x :: seen) l'
  end.

(** Modelled from the spec: [helpers.without_duplicates] is imported by
    plugin.py but its module is not among the sources; the spec has it
    deduplicate a list and preserve the first-seen order. *)
Definition without_duplicates (l : list string) : list string :=
  unique_from [] l.

(** Modelled from the spec: the attributes that plugin.py reads from the
    [models.options.Options] object [_meta] of a plugin class (the module
    is not among the sources). The delay is a non-negative number of
    seconds. *)
Record Options := {
  search_url : string;
  query_param : string;
  include_param : string;
  exclude_param : string;
  subdomains_selector : string;
  request_delay : N;
  abstract : bool
}.

(** ** [PluginBase] instances *)

Record PluginBase := {
  domain : string;
  exclude_subdomains : option (list string)
}.

(** [PluginBase.__init__(domain, **kwargs)]: the only keyword taken is
    [exclude_subdomains]; any other one raises AttributeError with the
    offending names. The domain is stored as it comes. *)
Definition init (domain : string) (kwargs : gmap string (list string))
    : PluginBase + list string :=
  let excl := kwargs !! "exclude_subdomains" in
  let kwargs := delete "exclude_subdomains" kwargs in
  if bool_decide (kwargs = ∅) then
    inl {| domain := domain; exclude_subdomains := excl |}
  else inr (map fst (map_to_list kwargs)).

(** ** [PluginBase.url] *)

(** [sep.join(l)] *)
Fixpoint join (sep : string) (l : list string) : string :=
  match l with
  | [] => ""
  | [x] => x
  | x :: l' => x +:+ sep +:+ join sep l'
  end.

(** The list computed on line 143: the argument ([None] and the empty
    list alike give []) followed by the instance's own exclusions,
    without duplicates. *)
Definition excluded_subdomains (self : PluginBase)
    (exclude : option (list string)) : list string :=
  without_duplicates
    (default [] exclude ++ default [] (exclude_subdomains self)).

Definition url (meta : Options) (self : PluginBase)
    (exclude : option (list string)) : string :=
  let url := search_url meta +:+ "?" +:+ query_param meta +:+ "="
             +:+ include_param meta +:+ domain self in
  match excluded_subdomains self exclude with
  | [] => url
  | excluded =>
      url +:+ "+" +:+
      join "+" (map (fun excluded_domain => exclude_param meta +:+ excluded_domain)
                    excluded)
  end.

(** ** [PluginBase.run] *)

(** What [PyQuery(url=url)], the selection [pq(selector)] and [extract]
    deliver for one request: the texts of the selected elements, or an
    exception with its message. *)
Inductive fetched :=
| Fragments (texts : list string)
| FetchError (message : string).

(** Observable actions of a run, in the order they happen. *)
Inductive event :=
| Progress (requests : nat)          (* the progress line on stdout *)
| Request (url : string) (answer : fetched)
| Abort (message : string)           (* "[X] Got an unexpected error ..." *)
| Summary (count : nat)              (* "[plugin] Collected n subdomains" *)
| Sleep (seconds : N).

Inductive status :=
| Polling
| Stopped_NoNewResults
| Stopped_Error
| Raised            (* sre_constants.error propagates out of run *)
| Not_Embedded.     (* the domain's pattern is beyond the embedded fragment *)

Record loop_state := {
  index : nat;
  collected_subdomains : list string;
  trace : list event;
  state : status
}.

(** [list.remove(x)] guarded by [x in list]: drops the first occurrence. *)
Fixpoint remove_first (x : string) (l : list string) : list string :=
  match l with
  | [] => []
  | y :: l' => if bool_decide (y = x) then l' else y :: remove_first x l'
  end.

Section Run.
Variable meta : Options.
Variable self : PluginBase.
(** The collaborator: answer to the request number [n] (from 0) for a
    URL and a selector. *)
Variable fetch : nat -> string -> string -> fetched.

Definition start : loop_state :=
  {| index := 0; collected_subdomains := []; trace := []; state := Polling |}.

(** One turn of [while True]. *)
Definition step (st : loop_state) : loop_state :=
  match state st with
  | Polling =>
      let i := index st in
      let url := url meta self (Some (collected_subdomains st)) in
      let answer := fetch i url (subdomains_selector meta) in
      let seen := (trace st ++ [Progress i; Request url answer])%list in
      match answer with
      | FetchError message =>
          {| index := S i; collected_subdomains := collected_subdomains st;
             trace := (seen ++ [Abort message])%list; state := Stopped_Error |}
      | Fragments texts =>
          match clean (domain self) texts with
          | Cleaned [] =>
              {| index := S i; collected_subdomains := collected_subdomains st;
                 trace := (seen ++ [Summary (length (collected_subdomains st))])%list;
                 state := Stopped_NoNewResults |}
          | Cleaned subdomains =>
              let collected :=
                without_duplicates (collected_subdomains st ++ subdomains) in
              let collected :=
                if bool_decide (domain self ∈ collected)
                then remove_first (domain self) collected else collected in
              {| index := S i; collected_subdomains := collected;
                 trace := (seen ++ [Sleep (request_delay meta)])%list;
                 state := Polling |}
          | CleanRaises =>
              {| index := S i; collected_subdomains := collected_subdomains st;
                 trace := seen; state := Raised |}
          | CleanNotEmbedded =>
              {| index := S i; collected_subdomains := collected_subdomains st;
                 trace := seen; state := Not_Embedded |}
          end
      end
  | _ => st
  end.

(** The first [n] turns of the loop (fewer if it stops before). *)
Fixpoint turns (n : nat) (st : loop_state) : loop_state :=
  match n with
  | 0 => st
  | S n' => turns n' (step st)
  end.

Inductive result :=
| Returns (subdomains : list string)
| Raises
| Unknown.

(** [run()] with a bound on the number of turns: [None] while the loop
    is still polling after [fuel] turns. *)
Definition run (fuel : nat) : option result :=
  let st := turns fuel start in
  match state st with
  | Polling => None
  | Stopped_NoNewResults | Stopped_Error => Some (Returns (collected_subdomains st))
  | Raised => Some Raises
  | Not_Embedded => Some Unknown
  end.
End Run.

(** ** Class creation: [PluginMeta.__new__]

    The metaclass works on attribute dictionaries: the attributes of the
    declared inner class [Meta] and the instance dictionary of an
    [Options] object. *)

Module Registry.

Inductive value :=
| VStr (s : string)
| VBool (b : bool)
| VNum (n : N).

Abbreviation attrs := (gmap string value).

Section Meta.
(** The constructor of [models.options.Options] and the reading of
    its attribute [abstract] (the module is not among the sources). *)
Variable Options : option attrs -> attrs.
Variable is_abstract : attrs -> bool.

(** [hasattr(meta, attr)] for a declared [Meta] or [None]. *)
Definition hasattr (meta : option attrs) (attr : string) : bool :=
  match meta with
  | Some m => bool_decide (is_Some (m !! attr))
  | None => false
  end.

(** The [_meta] that [__new__] gives a new plugin class, from the
    [Meta] found in its body (if any) and the [_meta] it would
    inherit from its base. No plugin class keeps an attribute [Meta]
    ([__new__] pops it before it copies the attributes), so a class
    declared without one has [meta = None]. *)
Definition new_meta (attr_meta : option attrs) (base_meta : option attrs)
    : attrs :=
  let meta := attr_meta in
  let _meta := Options meta in
  match base_meta with
  | Some base =>
      if negb (is_abstract base) then
        map_fold (fun attr v acc =>
                    if hasattr meta attr then acc else <[attr := v]> acc)
                 _meta base
      else _meta
  | None => _meta
  end.

(** The [_meta] of every class of a single-inheritance chain below
    [PluginBase] (which has none), given the [Meta] declarations from
    the topmost class down. *)
Fixpoint define (base_meta : option attrs) (chain : list (option attrs))
    : list attrs :=
  match chain with
  | [] => []
  | meta :: rest =>
      let m := new_meta meta base_meta in
      m :: define (Some m) rest
  end.

(** The nearest entry of a list of ancestors' [_meta] (topmost first)
    that is not abstract. *)
Definition nearest_concrete (ancestors : list attrs) : option attrs :=
  last (filter (fun m => is_abstract m = false) ancestors).
End Meta.

(** Modelled from the spec: [models.options.Options] is not among the
    sources; per the spec, declared fields are used as they are, and
    [abstract] is a boolean field, false unless declared. *)
Definition declared_options (meta : option attrs) : attrs := default ∅ meta.

Definition declared_abstract (m : attrs) : bool :=
  match m !! "abstract" with
  | Some (VBool b) => b
  | _ => false
  end.

(** The resolution rule in the words of the specification: a class that
    is not abstract takes a field that its declaration omits from its
    nearest ancestor that is not abstract. *)
Definition inherits_from_nearest_concrete
    (Options : option attrs -> attrs) (is_abstract : attrs -> bool) : Prop :=
  forall (chain : list (option attrs)) (meta : option attrs) (field : string)
         (ancestor : attrs),
    let ancestors := define Options is_abstract None chain in
    let m := new_meta Options is_abstract meta (last ancestors) in
    is_abstract m = false ->
    hasattr meta field = false ->
    nearest_concrete is_abstract ancestors = Some ancestor ->
    m !! field = ancestor !! field.

End Registry.

(** * Readings of a text

    The declarative side of the matcher, and the pieces of the match of
    [pattern] that the proofs name. *)

Definition plain (p : list ascii) : Prop := Forall (fun c => c <> newline) p.

(** A fixed sequence of one-character atoms matches deterministically. *)
Fixpoint strip (l : list atom) (s : list ascii) : option (list ascii) :=
  match l, s with
  | [], _ => Some s
  | a :: l', c :: s' => if atom_match a c then strip l' s' else None
  | _ :: _, [] => None
  end.

Definition matches (l : list atom) (w : list ascii) : Prop :=
  Forall2 (fun a c => atom_match a c = true) l w.

Definition sep (c : ascii) : Prop := c = "/"%char \/ c = "?"%char.

(** A host candidate: any text without a newline, then a text that the
    domain matches when read as a regular expression. *)
Definition host (dom : list atom) (h : list ascii) : Prop :=
  exists p w, h = (p ++ w)%list /\ plain p /\ matches dom w.

(** Nothing, or a non-empty text without a newline followed by "://". *)
Definition scheme (sc : list ascii) : Prop :=
  sc = [] \/ exists x, x <> [] /\ plain x /\ sc = (x ++ chars "://")%list.

(** A way to read the text [t]: a scheme, a host candidate, a "/" or "?",
    and anything after it. *)
Definition split (dom : list atom) (t sc h : list ascii) : Prop :=
  scheme sc /\ host dom h /\ exists c r, sep c /\ t = (sc ++ h ++ c :: r)%list.

(** The reading that greedy matching prefers: the longest scheme, then
    the longest host. *)
Definition preferred (dom : list atom) (t sc h : list ascii) : Prop :=
  split dom t sc h /\
  forall sc' h', split dom t sc' h' ->
    length sc' < length sc \/ (length sc' = length sc /\ length h' <= length h).

(** The host and what follows it, from the text [s] on. *)
Definition body (dom : list atom) (s : list ascii) (g : groups) : option groups :=
  rmatch (host_re dom) s g
    (fun s' g' => rmatch rest_re s' g' (fun _ g0 => Some g0)).

(** The continuation of the greedy run of [body]. *)
Definition host_k (dom : list atom) (s : list ascii) (g : groups)
    (s1 : list ascii) : option groups :=
  match strip dom s1 with
  | Some (c :: r) =>
      if atom_match (OneOf (chars "/?")) c
      then Some (("subdomain", take (length s - length (c :: r)) s)
                 :: ("3", take (length s - length s1) s) :: g)
      else None
  | _ => None
  end.

(** The continuation of the greedy run of the scheme, and the branch of
    the optional group 1 being present. *)
Definition scheme_k (dom : list atom) (s s2 : list ascii) : option groups :=
  match strip (map Lit (chars "://")) s2 with
  | Some s3 => body dom s3 [("1", take (length s - length s3) s)]
  | None => None
  end.

Definition scheme_branch (dom : list atom) (s : list ascii) : option groups :=
  match s with
  | [] => None
  | c :: s' =>
      if atom_match AnyChar c then star_loop AnyChar s' (scheme_k dom s) else None
  end.

(** ** The matching rule in the words of the specification *)

Module Spec.

Definition is_sep (c : ascii) : bool :=
  Ascii.eqb c "/"%char || Ascii.eqb c "?"%char.

(** The text that follows the first "://", if there is one. *)
Fixpoint after_scheme (t : list ascii) : option (list ascii) :=
  match t with
  | [] => None
  | c :: t' =>
      match strip (map Lit (chars "://")) t with
      | Some rest => Some rest
      | None => after_scheme t'
      end
  end.

(** The text up to its first "/" or "?", if there is one. *)
Fixpoint up_to_sep (t : list ascii) : option (list ascii) :=
  match t with
  | [] => None
  | c :: t' => if is_sep c then Some [] else cons c <$> up_to_sep t'
  end.

(** Strip an optional leading scheme; take the prefix up to the first
    "/" or "?"; accept it if it ends with the domain and is not empty. *)
Definition clean_text (domain : string) (t : string) : list string :=
  let rest := default (chars t) (after_scheme (chars t)) in
  match up_to_sep rest with
  | Some prefix =>
      if bool_decide (chars domain `suffix_of` prefix)
         && negb (bool_decide (prefix = []))
      then [str prefix] else []
  | None => []
  end.

Definition clean (domain : string) (urls : list string) : list string :=
  flat_map (clean_text domain) urls.

(** The URL in the words of the specification: the base, then one term
    per exclusion of the deduplicated list, in its order. *)
Definition buildURL (config : Options) (domain : string)
    (exclusions : list string) : string :=
  foldl (fun url excluded => url +:+ "+" +:+ exclude_param config +:+ excluded)
        (search_url config +:+ "?" +:+ query_param config +:+ "="
         +:+ include_param config +:+ domain)
        (without_duplicates exclusions).

End Spec.

(** * The log of a run *)

(** The subdomains that one logged request contributed. *)
Definition page (domain : string) (e : event) : list string :=
  match e with
  | Request _ (Fragments texts) =>
      match clean domain texts with
      | Cleaned subdomains => subdomains
      | _ => []
      end
  | _ => []
  end.

(** All cleaned results of a log, in the order of arrival. *)
Definition merged (domain : string) (log : list event) : list string :=
  flat_map (page domain) log.

(** The URLs requested, in order. *)
Definition requests (log : list event) : list string :=
  flat_map (fun e => match e with Request url _ => [url] | _ => [] end) log.

(** The merge invariant of the accumulated list. *)
Definition accumulated (domain : string) (st : loop_state) : Prop :=
  NoDup (collected_subdomains st)
  /\ collected_subdomains st
     = without_duplicates
         (filter (fun x => x <> domain) (merged domain (trace st))).

(** The states in which [run] is still going or has returned. *)
Definition no_exception (s : status) : Prop :=
  s = Polling \/ s = Stopped_NoNewResults \/ s = Stopped_Error.

(** The exclusion terms of a URL, one after the other. *)
Definition exclude_terms (exclude_param : string) (l : list string) : string :=
  foldr (fun e acc => "+" +:+ exclude_param +:+ e +:+ acc) "" l.

(** * Sample inputs *)

(** A configuration in the style of a search-engine plugin. *)
Definition sample_meta : Options :=
  {| search_url := "https://www.google.com/search";
     query_param := "q";
     include_param := "site:";
     exclude_param := "-site:";
     subdomains_selector := "cite";
     request_delay := 5;
     abstract := false |}.

(** A collaborator that answers the first request with [texts] and
    raises on every later one. *)
Definition fails_after_first (texts : list string) (message : string)
    : nat -> string -> string -> fetched :=
  fun n _ _ => match n with 0 => Fragments texts | _ => FetchError message end.

(** A collaborator that finds nothing from the second request on. *)
Definition empty_after_first (texts : list string)
    : nat -> string -> string -> fetched :=
  fun n _ _ => match n with 0 => Fragments texts | _ => Fragments [] end.

(** A collaborator that never finds anything. *)
Definition finds_nothing : nat -> string -> string -> fetched :=
  fun _ _ _ => Fragments [].

(** A collaborator that finds the same texts on every page. *)
Definition always_finds (texts : list string)
    : nat -> string -> string -> fetched :=
  fun _ _ _ => Fragments texts.

(** * Pacing of the requests *)

(** Scan of a log: a request may be made at the start and after a sleep
    of [delay] seconds since the last request; [ready] tells whether one
    may be made now. *)
Fixpoint paced (delay : N) (ready : bool) (log : list event) : bool :=
  match log with
  | [] => true
  | Request _ _ :: log' => ready && paced delay false log'
  | Sleep s :: log' => paced delay (ready || N.eqb s delay) log'
  | _ :: log' => paced delay ready log'
  end.

(** Whether a request may be made after the log. *)
Fixpoint ready_after (delay : N) (ready : bool) (log : list event) : bool :=
  match log with
  | [] => ready
  | Request _ _ :: log' => ready_after delay false log'
  | Sleep s :: log' => ready_after delay (ready || N.eqb s delay) log'
  | _ :: log' => ready_after delay ready log'
  end.

(** * Properties *)

(** ** Strings *)

Lemma append_cons (x : ascii) (a b : string) :
  String x a +:+ b = String x (a +:+ b).
Proof. reflexivity. Qed.

Lemma append_assoc (a b c : string) : (a +:+ b) +:+ c = a +:+ b +:+ c.
Proof.
  induction a as [|x a IH]; [reflexivity|].
  rewrite !append_cons. f_equal. exact IH.
Qed.

Lemma append_nil_r (a : string) : a +:+ "" = a.
Proof.
  induction a as [|x a IH]; [reflexivity|].
  rewrite append_cons. f_equal. exact IH.
Qed.


(** ** Order-preserving deduplication *)

Lemma elem_of_unique_from (x : string) seen l :
  x ∈ unique_from seen l <-> x ∈ l /\ x ∉ seen.
Proof.
  revert seen. induction l as [|y l IH]; intros seen; simpl.
  - split; [intros H; inversion H | intros [H _]; inversion H].
  - case_bool_decide as Hy.
    + rewrite IH, elem_of_cons. split; [tauto|].
      intros [[->|H] Hs]; [contradiction | tauto].
    + rewrite !elem_of_cons, IH, elem_of_cons.
      split.
      * intros [->|[H Hn]]; [tauto|]. split; [tauto|]. intros Hs. apply Hn. tauto.
      * intros [[->|H] Hs]; [tauto|].
        destruct (decide (x = y)) as [->|Hne]; [tauto|]. right. split; [done|].
        intros [?|?]; contradiction.
Qed.

Lemma NoDup_unique_from seen l : NoDup (unique_from seen l).
Proof.
  revert seen. induction l as [|y l IH]; intros seen; simpl.
  - constructor.
  - case_bool_decide; [apply IH|]. constructor; [|apply IH].
    rewrite elem_of_unique_from, elem_of_cons. tauto.
Qed.

Lemma unique_from_app_idem seen a b :
  unique_from seen (unique_from seen a ++ b) = unique_from seen (a ++ b).
Proof.
  revert seen. induction a as [|x a IH]; intros seen; simpl; [reflexivity|].
  case_bool_decide as Hx; [apply IH|]. simpl.
  rewrite bool_decide_eq_false_2 by done. f_equal. apply IH.
Qed.

Lemma unique_from_seen seen1 seen2 l :
  (forall x : string, x ∈ l -> (x ∈ seen1 <-> x ∈ seen2)) ->
  unique_from seen1 l = unique_from seen2 l.
Proof.
  revert seen1 seen2. induction l as [|y l IH]; intros s1 s2 H; simpl; [reflexivity|].
  assert (Hy : y ∈ s1 <-> y ∈ s2) by (apply H; left).
  assert (Hl : forall x : string, x ∈ l -> (x ∈ s1 <-> x ∈ s2))
    by (intros x Hx; apply H; now right).
  do 2 case_bool_decide; try tauto.
  - now apply IH.
  - f_equal. apply IH. intros x Hx. rewrite !elem_of_cons, (Hl x Hx). tauto.
Qed.

Lemma unique_from_app seen a b :
  unique_from seen (a ++ b)
  = (unique_from seen a ++ unique_from (a ++ seen) b)%list.
Proof.
  revert seen. induction a as [|x a IH]; intros seen; simpl; [reflexivity|].
  case_bool_decide as Hx.
  - rewrite IH. f_equal. apply unique_from_seen. intros y _.
    rewrite elem_of_cons, !elem_of_app.
    split; [tauto | intros [->|?]; tauto].
  - simpl. f_equal. rewrite IH. f_equal. apply unique_from_seen. intros y _.
    rewrite !elem_of_cons, !elem_of_app, elem_of_cons. tauto.
Qed.

Lemma unique_from_filter (P : string -> Prop) `{!forall x, Decision (P x)} seen l :
  filter P (unique_from seen l) = unique_from seen (filter P l).
Proof.
  revert seen. induction l as [|x l IH]; intros seen; simpl; [reflexivity|].
  rewrite filter_cons. case_bool_decide as Hx; destruct (decide (P x)) as [Hp|Hp]; simpl.
  - rewrite bool_decide_eq_true_2 by done. apply IH.
  - apply IH.
  - rewrite bool_decide_eq_false_2 by done. rewrite filter_cons_True by done.
    f_equal. apply IH.
  - rewrite filter_cons_False by done. rewrite IH.
    apply unique_from_seen. intros y Hy. rewrite elem_of_cons.
    apply list_elem_of_filter in Hy as [Hy _].
    split; [intros [->|?]; [contradiction | done] | tauto].
Qed.

Lemma unique_from_NoDup seen l :
  NoDup l -> (forall x, x ∈ l -> x ∉ seen) -> unique_from seen l = l.
Proof.
  revert seen. induction l as [|x l IH]; intros seen Hnd Hs; simpl; [reflexivity|].
  apply NoDup_cons in Hnd as [Hx Hnd].
  rewrite bool_decide_eq_false_2 by (apply Hs; left).
  f_equal. apply IH; [done|]. intros y Hy. rewrite elem_of_cons.
  intros [->|H]; [contradiction|]. revert H. apply Hs. now right.
Qed.

Lemma NoDup_without_duplicates l : NoDup (without_duplicates l).
Proof. apply NoDup_unique_from. Qed.

Lemma elem_of_without_duplicates (x : string) l :
  x ∈ without_duplicates l <-> x ∈ l.
Proof.
  unfold without_duplicates. rewrite elem_of_unique_from.
  split; [tauto|]. intros H. split; [done|]. apply not_elem_of_nil.
Qed.

Lemma without_duplicates_NoDup l : NoDup l -> without_duplicates l = l.
Proof. intros H. apply unique_from_NoDup; [done|]. intros. apply not_elem_of_nil. Qed.

Lemma filter_all (P : string -> Prop) `{!forall x, Decision (P x)} (l : list string) :
  (forall x, x ∈ l -> P x) -> filter P l = l.
Proof.
  induction l as [|x l IH]; intros Hall; [reflexivity|].
  rewrite filter_cons_True by (apply Hall; left). f_equal. apply IH.
  intros y Hy. apply Hall. now right.
Qed.

Lemma remove_first_NoDup (d : string) l :
  NoDup l -> remove_first d l = filter (fun x => x <> d) l.
Proof.
  induction l as [|y l IH]; intros Hnd; simpl; [reflexivity|].
  apply NoDup_cons in Hnd as [Hy Hnd]. case_bool_decide as E.
  - subst y. rewrite filter_cons_False by tauto.
    symmetry. apply filter_all. intros x Hx ->. contradiction.
  - rewrite filter_cons_True by done. f_equal. now apply IH.
Qed.

(** The guarded removal of the bare domain, on a duplicate-free list. *)
Lemma guarded_remove_NoDup (d : string) l :
  NoDup l ->
  (if bool_decide (d ∈ l) then remove_first d l else l)
  = filter (fun x => x <> d) l.
Proof.
  intros Hnd. case_bool_decide as Hd; [now apply remove_first_NoDup|].
  symmetry. apply filter_all. intros x Hx ->. contradiction.
Qed.

(** ** The matcher *)

Lemma atom_match_AnyChar c : atom_match AnyChar c = true <-> c <> newline.
Proof.
  simpl. rewrite negb_true_iff. destruct (Ascii.eqb_spec c newline); split; congruence.
Qed.

Lemma Forall_AnyChar p :
  Forall (fun c => atom_match AnyChar c = true) p <-> plain p.
Proof. unfold plain. apply Forall_proper; [|done]. intros c. apply atom_match_AnyChar. Qed.

Section StarLoop.
Context {R : Type}.
Implicit Types (k : list ascii -> option R) (s p : list ascii).

Lemma star_loop_None a s k :
  star_loop a s k = None ->
  forall p s', s = (p ++ s')%list ->
    Forall (fun c => atom_match a c = true) p -> k s' = None.
Proof.
  induction s as [|c s IH]; simpl; intros E p s' Hs Hp.
  - symmetry in Hs. apply app_eq_nil in Hs as [-> ->]. exact E.
  - destruct p as [|c' p]; simpl in Hs.
    + subst s'. destruct (atom_match a c); [|exact E].
      destruct (star_loop a s k); [discriminate | exact E].
    + injection Hs as -> ->. apply Forall_cons in Hp as [Hc Hp].
      rewrite Hc in E. destruct (star_loop a (p ++ s') k) eqn:E'; [discriminate|].
      now apply (IH eq_refl p s').
Qed.

(** Greedy: the continuation succeeds after the longest run of
    characters for which it can. *)
Lemma star_loop_Some a s k r :
  star_loop a s k = Some r ->
  exists p s', s = (p ++ s')%list
    /\ Forall (fun c => atom_match a c = true) p
    /\ k s' = Some r
    /\ forall p2 s2, s = (p2 ++ s2)%list ->
         Forall (fun c => atom_match a c = true) p2 ->
         length p < length p2 -> k s2 = None.
Proof.
  revert r. induction s as [|c s IH]; simpl; intros r E.
  - exists [], []. repeat split; [constructor | exact E |].
    intros p2 s2 Hs _ Hlen. symmetry in Hs. apply app_eq_nil in Hs as [-> _].
    simpl in Hlen. lia.
  - destruct (atom_match a c) eqn:Hc.
    + destruct (star_loop a s k) as [r0|] eqn:E'.
      * injection E as ->. destruct (IH r eq_refl) as (p & s' & -> & Hp & Hk & Hmax).
        exists (c :: p), s'. repeat split; [by constructor | exact Hk |].
        intros [|c2 p2] s2 Hs Hp2 Hlen; simpl in *; [lia|].
        injection Hs as -> Hs. apply Forall_cons in Hp2 as [_ Hp2].
        apply (Hmax p2 s2 Hs Hp2). lia.
      * exists [], (c :: s). repeat split; [constructor | exact E |].
        intros [|c2 p2] s2 Hs Hp2 Hlen; simpl in *; [lia|].
        injection Hs as -> Hs. apply Forall_cons in Hp2 as [_ Hp2].
        now apply (star_loop_None a s k E' p2 s2).
    + exists [], (c :: s). repeat split; [constructor | exact E |].
      intros [|c2 p2] s2 Hs Hp2 Hlen; simpl in *; [lia|].
      injection Hs as -> Hs. apply Forall_cons in Hp2 as [Hc2 _]. congruence.
Qed.

Lemma star_loop_const a s (r : R) : star_loop a s (fun _ => Some r) = Some r.
Proof.
  induction s as [|c s IH]; simpl; [reflexivity|].
  destruct (atom_match a c); [now rewrite IH | reflexivity].
Qed.
End StarLoop.

Lemma rmatch_atoms {R} l s g (k : list ascii -> groups -> option R) :
  rmatch (atoms l) s g k
  = match strip l s with Some s' => k s' g | None => None end.
Proof.
  revert s. induction l as [|a l IH]; intros s; simpl; [reflexivity|].
  destruct s as [|c s]; [reflexivity|].
  destruct (atom_match a c); [apply IH | reflexivity].
Qed.

Lemma strip_Some l s s' :
  strip l s = Some s' <-> exists w, matches l w /\ s = (w ++ s')%list.
Proof.
  revert s. induction l as [|a l IH]; intros s; simpl.
  - split.
    + intros [= ->]. exists []. split; [constructor | reflexivity].
    + intros (w & Hw & ->). apply Forall2_nil_inv_l in Hw as ->. reflexivity.
  - destruct s as [|c s].
    + split; [discriminate|]. intros (w & Hw & Hs).
      apply Forall2_cons_inv_l in Hw as (c & w' & _ & _ & ->). discriminate.
    + destruct (atom_match a c) eqn:Hc.
      * rewrite IH. split.
        -- intros (w & Hw & ->). exists (c :: w). split; [by constructor | reflexivity].
        -- intros (w & Hw & Hs).
           apply Forall2_cons_inv_l in Hw as (c' & w' & _ & Hw & ->).
           injection Hs as -> ->. eauto.
      * split; [discriminate|]. intros (w & Hw & Hs).
        apply Forall2_cons_inv_l in Hw as (c' & w' & Hc' & _ & ->).
        injection Hs as -> _. congruence.
Qed.

Lemma matches_length l w : matches l w -> length w = length l.
Proof. intros H. symmetry. exact (Forall2_length _ _ _ H). Qed.

Lemma take_consumed (h s' : list ascii) :
  take (length (h ++ s') - length s') (h ++ s') = h.
Proof.
  rewrite length_app. replace (length h + length s' - length s') with (length h) by lia.
  apply take_app_length.
Qed.

Lemma atom_match_sep c : atom_match (OneOf (chars "/?")) c = true <-> sep c.
Proof.
  unfold sep. simpl. rewrite !orb_true_iff, !Ascii.eqb_eq. intuition discriminate.
Qed.

Lemma star_loop_ext {R} a s (k1 k2 : list ascii -> option R) :
  (forall s', k1 s' = k2 s') -> star_loop a s k1 = star_loop a s k2.
Proof.
  intros H. induction s as [|c s IH]; simpl; [apply H|].
  rewrite IH, H. reflexivity.
Qed.

Lemma body_eq dom s g : body dom s g = star_loop AnyChar s (host_k dom s g).
Proof.
  unfold body, host_re, rest_re. cbn [rmatch]. apply star_loop_ext. intros s1.
  rewrite rmatch_atoms. unfold host_k. destruct (strip dom s1) as [[|c r]|]; try reflexivity.
  destruct (atom_match (OneOf (chars "/?")) c); [|reflexivity].
  apply star_loop_const.
Qed.

Lemma host_k_Some dom s g w c r :
  matches dom w -> sep c ->
  host_k dom s g (w ++ c :: r)
  = Some (("subdomain", take (length s - length (c :: r)) s)
          :: ("3", take (length s - length (w ++ c :: r)) s) :: g).
Proof.
  intros Hw Hc. unfold host_k.
  assert (E : strip dom (w ++ c :: r) = Some (c :: r)) by (apply strip_Some; eauto).
  rewrite E. apply atom_match_sep in Hc. now rewrite Hc.
Qed.

Lemma host_k_inv dom s g s1 g' :
  host_k dom s g s1 = Some g' ->
  exists w c r, matches dom w /\ sep c /\ s1 = (w ++ c :: r)%list.
Proof.
  unfold host_k. destruct (strip dom s1) as [[|c r]|] eqn:E; try discriminate.
  destruct (atom_match (OneOf (chars "/?")) c) eqn:Hc; [|discriminate]. intros _.
  apply strip_Some in E as (w & Hw & ->). apply atom_match_sep in Hc. eauto 6.
Qed.

Lemma body_None dom s g :
  body dom s g = None ->
  forall h c r, s = (h ++ c :: r)%list -> host dom h -> sep c -> False.
Proof.
  rewrite body_eq. intros E h c r -> (p & w & -> & Hp & Hw) Hc.
  apply Forall_AnyChar in Hp.
  pose proof (star_loop_None _ _ _ E p (w ++ c :: r)) as Hn.
  rewrite <- app_assoc in Hn. specialize (Hn eq_refl Hp).
  rewrite host_k_Some in Hn by done. discriminate.
Qed.

Lemma body_Some dom s g g' :
  body dom s g = Some g' ->
  exists h c r, s = (h ++ c :: r)%list /\ host dom h /\ sep c
    /\ group "subdomain" g' = Some h
    /\ forall h2 c2 r2, s = (h2 ++ c2 :: r2)%list -> host dom h2 -> sep c2 ->
         length h2 <= length h.
Proof.
  rewrite body_eq. intros E.
  apply star_loop_Some in E as (p & s1 & Hs & Hp & Hk & Hmax).
  destruct (host_k_inv _ _ _ _ _ Hk) as (w & c & r & Hw & Hc & ->).
  rewrite host_k_Some in Hk by done. injection Hk as <-.
  exists (p ++ w)%list, c, r. rewrite <- app_assoc. split; [exact Hs|].
  split; [exists p, w; split; [done|]; split; [by apply Forall_AnyChar | done]|].
  split; [exact Hc|]. split.
  - simpl group. subst s. f_equal.
    rewrite (app_assoc p w (c :: r)). apply take_consumed.
  - intros h2 c2 r2 Hs2 (p2 & w2 & -> & Hp2 & Hw2) Hc2.
    destruct (decide (length (p2 ++ w2) <= length (p ++ w))) as [|Hgt]; [done|].
    exfalso. rewrite !length_app, (matches_length _ _ Hw), (matches_length _ _ Hw2) in Hgt.
    assert (Hn : host_k dom s g (w2 ++ c2 :: r2) = None).
    { apply (Hmax p2); [by rewrite Hs2, <- app_assoc | by apply Forall_AnyChar | lia]. }
    rewrite host_k_Some in Hn by done. discriminate.
Qed.

Lemma matches_Lit l w : matches (map Lit l) w <-> w = l.
Proof.
  unfold matches. revert w. induction l as [|c l IH]; intros w; simpl.
  - split; [apply Forall2_nil_inv_l | intros ->; constructor].
  - split.
    + intros H. apply Forall2_cons_inv_l in H as (c' & w' & Hc & Hw & ->).
      simpl in Hc. apply Ascii.eqb_eq in Hc as ->. f_equal. now apply IH.
    + intros ->. constructor; [simpl; apply Ascii.eqb_refl | now apply IH].
Qed.

Lemma re_match_eq dom s :
  re_match (pattern dom) s
  = match scheme_branch dom s with
    | Some x => Some x
    | None => body dom s []
    end.
Proof.
  unfold re_match, pattern, scheme_re. cbn [rmatch]. fold (body dom s []).
  replace (scheme_branch dom s) with
    (match s with
     | [] => None
     | c :: s' =>
         if atom_match AnyChar c then
           star_loop AnyChar s'
             (fun s'' => rmatch (literal "://") s'' []
                (fun s'0 g' => body dom s'0 (("1", take (length s - length s'0) s) :: g')))
         else None
     end); [reflexivity|].
  unfold scheme_branch. destruct s as [|c s']; [reflexivity|].
  destruct (atom_match AnyChar c); [|reflexivity].
  apply star_loop_ext. intros s2. unfold literal. now rewrite rmatch_atoms.
Qed.

Lemma scheme_k_at dom s s3 :
  scheme_k dom s (chars "://" ++ s3)
  = body dom s3 [("1", take (length s - length s3) s)].
Proof.
  unfold scheme_k.
  assert (E : strip (map Lit (chars "://")) (chars "://" ++ s3) = Some s3).
  { apply strip_Some. exists (chars "://"). split; [by apply matches_Lit | reflexivity]. }
  now rewrite E.
Qed.

Lemma scheme_k_inv dom s s2 g :
  scheme_k dom s s2 = Some g ->
  exists s3, s2 = (chars "://" ++ s3)%list.
Proof.
  unfold scheme_k. destruct (strip _ s2) as [s3|] eqn:E; [|discriminate]. intros _.
  apply strip_Some in E as (w & Hw & ->). apply matches_Lit in Hw as ->. eauto.
Qed.

Lemma scheme_branch_None dom s :
  scheme_branch dom s = None ->
  forall x s3 h c r, x <> [] -> plain x ->
    s = (x ++ chars "://" ++ s3)%list -> s3 = (h ++ c :: r)%list ->
    host dom h -> sep c -> False.
Proof.
  intros E [|c0 x] s3 h c r Hx Hp -> Hs3 Hh Hc; [done|].
  unfold scheme_branch in E. cbn [app] in E. apply Forall_cons in Hp as [Hc0 Hp].
  apply atom_match_AnyChar in Hc0. rewrite Hc0 in E.
  apply Forall_AnyChar in Hp.
  pose proof (star_loop_None _ _ _ E x (chars "://" ++ s3) eq_refl Hp) as Hn.
  rewrite scheme_k_at in Hn. exact (body_None _ _ _ Hn h c r Hs3 Hh Hc).
Qed.

Lemma scheme_branch_Some dom s g :
  scheme_branch dom s = Some g ->
  exists x s3 g1, x <> [] /\ plain x /\ s = (x ++ chars "://" ++ s3)%list
    /\ body dom s3 g1 = Some g
    /\ forall x2 s4 h c r, plain x2 -> s = (x2 ++ chars "://" ++ s4)%list ->
         length x < length x2 -> s4 = (h ++ c :: r)%list ->
         host dom h -> sep c -> False.
Proof.
  destruct s as [|c0 s']; unfold scheme_branch; [discriminate|].
  destruct (atom_match AnyChar c0) eqn:Hc0; [|discriminate]. intros E.
  apply star_loop_Some in E as (p & s2 & -> & Hp & Hk & Hmax).
  destruct (scheme_k_inv _ _ _ _ Hk) as (s3 & ->). rewrite scheme_k_at in Hk.
  exists (c0 :: p), s3, [("1", take (length (c0 :: p ++ chars "://" ++ s3) - length s3)
                              (c0 :: p ++ chars "://" ++ s3))].
  split; [done|]. split.
  { constructor; [by apply atom_match_AnyChar | by apply Forall_AnyChar]. }
  split; [reflexivity|]. split; [exact Hk|].
  intros [|c2 x2] s4 h c r Hp2 Hs Hlen Hs4 Hh Hc; simpl in Hlen; [lia|].
  injection Hs as -> Hs. apply Forall_cons in Hp2 as [_ Hp2]. apply Forall_AnyChar in Hp2.
  assert (Hn : scheme_k dom (c2 :: p ++ chars "://" ++ s3) (chars "://" ++ s4) = None)
    by (apply (Hmax x2); [done | done | lia]).
  rewrite scheme_k_at in Hn. exact (body_None _ _ _ Hn h c r Hs4 Hh Hc).
Qed.

Lemma scheme_cons x : x <> [] -> plain x -> scheme (x ++ chars "://").
Proof. intros Hx Hp. right. eauto. Qed.

(** A match is the preferred reading of the text, and the group
    "subdomain" is its host. *)
Lemma re_match_Some dom s g :
  re_match (pattern dom) s = Some g ->
  exists sc h, preferred dom s sc h /\ group "subdomain" g = Some h.
Proof.
  rewrite re_match_eq. destruct (scheme_branch dom s) as [g0|] eqn:Esc.
  - intros [= ->].
    apply scheme_branch_Some in Esc as (x & s3 & g1 & Hx & Hp & Hs & Hb & Hmax).
    apply body_Some in Hb as (h & c & r & Hs3 & Hh & Hc & Hg & Hlong).
    exists (x ++ chars "://")%list, h. split; [|exact Hg]. split.
    + split; [by apply scheme_cons|]. split; [exact Hh|]. exists c, r.
      split; [exact Hc|]. now rewrite Hs, Hs3, <- app_assoc.
    + intros sc' h' (Hsc' & Hh' & c' & r' & Hc' & Hs').
      destruct Hsc' as [->|(x' & Hx' & Hp' & ->)].
      { left. rewrite length_app. simpl. lia. }
      rewrite <- app_assoc in Hs'. rewrite !length_app.
      destruct (lt_eq_lt_dec (length x') (length x)) as [[Hlt|Heq]|Hgt].
      * left. lia.
      * right. split; [lia|]. rewrite Hs in Hs'.
        apply app_inj_1 in Hs' as [_ Hs']; [|lia].
        apply app_inv_head in Hs'. exact (Hlong h' c' r' Hs' Hh' Hc').
      * destruct (Hmax x' (h' ++ c' :: r')%list h' c' r' Hp' Hs' Hgt eq_refl Hh' Hc').
  - intros Hb. apply body_Some in Hb as (h & c & r & Hs & Hh & Hc & Hg & Hlong).
    exists [], h. split; [|exact Hg]. split.
    + split; [by left|]. split; [exact Hh|]. exists c, r. split; [exact Hc | exact Hs].
    + intros sc' h' (Hsc' & Hh' & c' & r' & Hc' & Hs').
      destruct Hsc' as [->|(x' & Hx' & Hp' & ->)].
      * right. split; [reflexivity|]. exact (Hlong h' c' r' Hs' Hh' Hc').
      * rewrite <- app_assoc in Hs'.
        destruct (scheme_branch_None _ _ Esc x' _ h' c' r' Hx' Hp' Hs' eq_refl Hh' Hc').
Qed.

(** No match: the text has no reading at all. *)
Lemma re_match_None dom s :
  re_match (pattern dom) s = None -> forall sc h, ~ split dom s sc h.
Proof.
  rewrite re_match_eq. destruct (scheme_branch dom s) as [g0|] eqn:Esc; [discriminate|].
  intros Hb sc h (Hsc & Hh & c & r & Hc & Hs).
  destruct Hsc as [->|(x & Hx & Hp & ->)].
  - exact (body_None _ _ _ Hb h c r Hs Hh Hc).
  - rewrite <- app_assoc in Hs.
    exact (scheme_branch_None _ _ Esc x _ h c r Hx Hp Hs eq_refl Hh Hc).
Qed.

Lemma preferred_unique dom t sc h sc' h' :
  preferred dom t sc h -> preferred dom t sc' h' -> sc = sc' /\ h = h'.
Proof.
  intros [Hs Hmax] [Hs' Hmax'].
  pose proof (Hmax _ _ Hs') as H1. pose proof (Hmax' _ _ Hs) as H2.
  destruct Hs as (_ & _ & c & r & _ & Ht), Hs' as (_ & _ & c' & r' & _ & Ht').
  rewrite Ht in Ht'. apply app_inj_1 in Ht' as [-> Ht']; [|lia].
  apply app_inj_1 in Ht' as [-> _]; [done | lia].
Qed.

(** [clean] keeps at most one string per text. *)
Lemma clean_url_cases r t :
  clean_url r t = [] \/ exists h, h <> "" /\ clean_url r t = [h].
Proof.
  unfold clean_url. destruct (re_match r (chars t)) as [g|]; [|by left].
  destruct (group "subdomain" g) as [[|c h]|]; [by left | | by left].
  right. exists (str (c :: h)). split; [discriminate | reflexivity].
Qed.

Lemma clean_url_accepts dom t h :
  clean_url (pattern dom) t = [h] <->
  h <> "" /\ exists sc, preferred dom (chars t) sc (chars h).
Proof.
  unfold clean_url. split.
  - destruct (re_match (pattern dom) (chars t)) as [g|] eqn:E; [|discriminate].
    apply re_match_Some in E as (sc & h0 & Hpref & Hg). rewrite Hg.
    destruct h0 as [|c h0]; [discriminate|]. intros [= <-].
    split; [discriminate|]. exists sc.
    rewrite <- (list_ascii_of_string_of_list_ascii (c :: h0)) in Hpref. exact Hpref.
  - intros (Hne & sc & Hpref).
    destruct (re_match (pattern dom) (chars t)) as [g|] eqn:E.
    + apply re_match_Some in E as (sc0 & h0 & Hpref0 & ->).
      destruct (preferred_unique _ _ _ _ _ _ Hpref0 Hpref) as [_ ->].
      destruct h as [|c h]; [done|]. simpl.
      now rewrite string_of_list_ascii_of_string.
    + destruct Hpref as [Hs _]. destruct (re_match_None _ _ E _ _ Hs).
Qed.

(** A domain without dots is matched by itself only. *)
Lemma matches_literal_domain d dom w :
  domain_atoms d = Some dom -> "."%char ∉ d -> matches dom w -> w = d.
Proof.
  revert dom w. induction d as [|c d IH]; intros dom w; simpl.
  - intros [= <-] _ Hw. now apply Forall2_nil_inv_l in Hw.
  - unfold domain_atom. rewrite not_elem_of_cons. intros E [Hc Hd].
    destruct (Ascii.eqb_spec c "."%char) as [->|_]; [done|].
    destruct (is_meta c); [discriminate|].
    destruct (domain_atoms d) as [l|]; [|discriminate]. injection E as <-.
    intros Hw. apply Forall2_cons_inv_l in Hw as (c' & w' & Hc' & Hw & ->).
    simpl in Hc'. apply Ascii.eqb_eq in Hc' as <-. f_equal. now apply (IH l).
Qed.

(** ** C1, C7, C10: the result cleaner *)

(** C1 (as the specification words it) fails: with domain "example.com"
    the text "a.example.com/x/b.example.com/y" is accepted, but what
    [clean] returns runs past the first "/" of the text: it is not the
    prefix up to the first "/" or "?" and it contains a "/". *)
Lemma clean_runs_past_first_separator :
  clean "example.com" ["a.example.com/x/b.example.com/y"]
    = Cleaned ["a.example.com/x/b.example.com"]
  /\ Spec.clean "example.com" ["a.example.com/x/b.example.com/y"]
    = ["a.example.com"]
  /\ clean "example.com" ["a.example.com/x/b.example.com/y"]
    <> Cleaned (Spec.clean "example.com" ["a.example.com/x/b.example.com/y"])
  /\ "/"%char ∈ chars "a.example.com/x/b.example.com".
Proof.
  split; [vm_compute; reflexivity|]. split; [vm_compute; reflexivity|].
  split; [vm_compute; discriminate|].
  apply list_elem_of_In. vm_compute. tauto.
Qed.

(** C1 (amended): for a domain of ordinary characters and dots, [clean]
    accepts a text exactly when the reading of the text that greedy
    matching prefers (an optional scheme, a host ending with a match of
    the domain read as a regular expression, then "/" or "?"; longest
    scheme first, then longest host) exists and has a non-empty host, and
    the value returned is exactly that host, without the scheme. A domain
    without dots is a literal suffix of the value. *)
Theorem clean_single_text (domain : string) (dom : list atom) (t : string) :
  domain_atoms (chars domain) = Some dom ->
  (forall h, clean domain [t] = Cleaned [h] <->
             h <> "" /\ exists sc, preferred dom (chars t) sc (chars h))
  /\ (clean domain [t] = Cleaned [] <->
      ~ exists h sc, h <> "" /\ preferred dom (chars t) sc (chars h))
  /\ (forall h, clean domain [t] = Cleaned [h] ->
        "."%char ∉ chars domain -> chars domain `suffix_of` chars h).
Proof.
  intros Hdom.
  assert (Hc : clean domain [t] = Cleaned (clean_url (pattern dom) t)).
  { unfold clean, re_compile. rewrite Hdom. simpl. now rewrite app_nil_r. }
  rewrite Hc.
  assert (Hacc : forall h, Cleaned (clean_url (pattern dom) t) = Cleaned [h] <->
                   h <> "" /\ exists sc, preferred dom (chars t) sc (chars h)).
  { intros h. rewrite <- clean_url_accepts. split; [intros [= ->] | intros ->]; done. }
  split; [exact Hacc|]. split.
  - split.
    + intros [= E] (h & sc & Hne & Hp).
      assert (Hh : clean_url (pattern dom) t = [h]) by (apply clean_url_accepts; eauto).
      congruence.
    + intros Hno. destruct (clean_url_cases (pattern dom) t) as [->|(h & Hne & E)]; [done|].
      exfalso. apply Hno. apply clean_url_accepts in E as (_ & sc & Hp). eauto.
  - intros h E Hdots. apply Hacc in E as (_ & sc & (_ & (p & w & -> & _ & Hw) & _) & _).
    apply (matches_literal_domain _ _ _ Hdom Hdots) in Hw as ->.
    now apply suffix_app_r.
Qed.

Lemma clean_single_text_witness :
  exists dom, domain_atoms (chars "example.com") = Some dom /\
    forall h, clean "example.com" ["http://sub.example.com/page?x=1"] = Cleaned [h] <->
              h <> "" /\ exists sc,
                preferred dom (chars "http://sub.example.com/page?x=1") sc (chars h).
Proof.
  eexists. split; [reflexivity|].
  apply (clean_single_text "example.com" _ "http://sub.example.com/page?x=1").
  reflexivity.
Defined.

(** C7: for domain "example.com", [clean] turns the one text
    "http://sub.example.com/page?x=1" into ["sub.example.com"], and the
    one text "no-match-here" into the empty list. *)
Theorem clean_examples :
  clean "example.com" ["http://sub.example.com/page?x=1"]
    = Cleaned ["sub.example.com"]
  /\ clean "example.com" ["no-match-here"] = Cleaned [].
Proof. split; vm_compute; reflexivity. Qed.

(** C10: the domain is pasted into the pattern unescaped, so its dot is
    the wildcard: for domain "a.com" the text "xaXcom/" is accepted and
    "xaXcom" returned, although it does not end with "a.com". *)
Theorem clean_dot_is_wildcard :
  domain_atoms (chars "a.com")
    = Some [Lit "a"; AnyChar; Lit "c"; Lit "o"; Lit "m"]
  /\ clean "a.com" ["xaXcom/"] = Cleaned ["xaXcom"]
  /\ ~ chars "a.com" `suffix_of` chars "xaXcom".
Proof.
  split; [reflexivity|]. split; [vm_compute; reflexivity|].
  intros [k Hk]. apply (f_equal length) in Hk as Hlen.
  rewrite length_app in Hlen. simpl in Hlen.
  destruct k as [|c [|c' k]]; simpl in Hlen; try lia. discriminate.
Qed.

(** ** C5, C6: the URL builder *)

Lemma join_terms ep x l :
  "+" +:+ join "+" (map (fun e => ep +:+ e) (x :: l)) = exclude_terms ep (x :: l).
Proof.
  revert x. induction l as [|y l IH]; intros x.
  - simpl. now rewrite append_nil_r.
  - change (join "+" (map (fun e => ep +:+ e) (x :: y :: l)))
      with ((ep +:+ x) +:+ "+" +:+ join "+" (map (fun e => ep +:+ e) (y :: l))).
    rewrite IH. cbn [exclude_terms foldr]. now rewrite !append_assoc.
Qed.

Lemma foldl_terms ep u l :
  foldl (fun url e => url +:+ "+" +:+ ep +:+ e) u l = u +:+ exclude_terms ep l.
Proof.
  revert u. induction l as [|x l IH]; intros u; simpl.
  - now rewrite append_nil_r.
  - rewrite IH. now rewrite !append_assoc.
Qed.

Lemma url_as_terms meta self exclude :
  url meta self exclude
  = (search_url meta +:+ "?" +:+ query_param meta +:+ "="
     +:+ include_param meta +:+ domain self)
    +:+ exclude_terms (exclude_param meta) (excluded_subdomains self exclude).
Proof.
  unfold url. destruct (excluded_subdomains self exclude) as [|x xs].
  - simpl. now rewrite append_nil_r.
  - rewrite <- join_terms. now rewrite !append_assoc.
Qed.

(** C5: [url] returns the search endpoint, "?", the include parameter,
    "=", the include prefix and the domain, followed by one term "+",
    exclude parameter, subdomain for each element of the deduplicated
    (first-seen order) exclusion list, in order; the exclusion list is the
    argument followed by the instance's own exclusions, so for an instance
    without any it is the argument, and an empty list gives the base URL
    alone. *)
Theorem url_is_buildURL (meta : Options) (self : PluginBase)
    (exclude : option (list string)) (d : string) (l : list string) :
  url meta self exclude
    = Spec.buildURL meta (domain self)
        (default [] exclude ++ default [] (exclude_subdomains self))
  /\ url meta {| domain := d; exclude_subdomains := None |} (Some l)
     = (search_url meta +:+ "?" +:+ query_param meta +:+ "="
        +:+ include_param meta +:+ d)
       +:+ exclude_terms (exclude_param meta) (without_duplicates l)
  /\ url meta {| domain := d; exclude_subdomains := None |} (Some [])
     = search_url meta +:+ "?" +:+ query_param meta +:+ "="
       +:+ include_param meta +:+ d.
Proof.
  split; [|split; [|reflexivity]].
  - rewrite url_as_terms. unfold Spec.buildURL. now rewrite foldl_terms.
  - rewrite url_as_terms. unfold excluded_subdomains. simpl.
    now rewrite app_nil_r.
Qed.

(** ** The enumeration loop *)

Section RunFacts.
Variable meta : Options.
Variable self : PluginBase.
Variable fetch : nat -> string -> string -> fetched.

Abbreviation step_ := (step meta self fetch).
Abbreviation turns_ := (turns meta self fetch).
Abbreviation run_ := (run meta self fetch).
Abbreviation d := (domain self).

Lemma polling_or_not (st : loop_state) : state st = Polling \/ state st <> Polling.
Proof. destruct (state st); (by left) || (by right). Qed.

Lemma step_stopped st : state st <> Polling -> step_ st = st.
Proof. unfold step. destruct (state st); congruence. Qed.

Lemma turns_stopped n st : state st <> Polling -> turns_ n st = st.
Proof.
  induction n as [|n IH]; intros H; simpl; [reflexivity|].
  rewrite step_stopped by done. now apply IH.
Qed.

Lemma turns_S n st : turns_ (S n) st = step_ (turns_ n st).
Proof. revert st. induction n as [|n IH]; intros st; [reflexivity|]. simpl. apply IH. Qed.

Lemma turns_add n m st : turns_ (n + m) st = turns_ m (turns_ n st).
Proof. revert st. induction n as [|n IH]; intros st; simpl; [reflexivity | apply IH]. Qed.

Lemma step_Polling st : state (step_ st) = Polling -> state st = Polling.
Proof.
  intros H. destruct (polling_or_not st) as [|Hn]; [done|].
  rewrite step_stopped in H by done. done.
Qed.

Lemma turns_Polling n st : state (turns_ n st) = Polling -> state st = Polling.
Proof.
  revert st. induction n as [|n IH]; intros st H; [exact H|].
  apply step_Polling, IH. exact H.
Qed.

Lemma step_index st : state st = Polling -> index (step_ st) = S (index st).
Proof.
  intros H. unfold step. rewrite H.
  destruct (fetch _ _ _); [|reflexivity].
  destruct (clean _ _) as [[|]| |]; reflexivity.
Qed.

Lemma turns_index n st :
  state (turns_ n st) = Polling -> index (turns_ n st) = index st + n.
Proof.
  revert st. induction n as [|n IH]; intros st H; simpl; [lia|].
  simpl in H. rewrite (IH _ H). rewrite step_index; [lia|].
  apply step_Polling. now apply (turns_Polling n).
Qed.

(** What a turn appends to the log is the progress line, the request
    and one more event at most. *)
Lemma step_trace st :
  state st = Polling ->
  let u := url meta self (Some (collected_subdomains st)) in
  exists tail,
    trace (step_ st)
    = (trace st ++ Progress (index st)
         :: Request u (fetch (index st) u (subdomains_selector meta)) :: tail)%list
    /\ merged d tail = [] /\ requests tail = [].
Proof.
  intros H u. unfold step. rewrite H. fold u.
  destruct (fetch _ u _); [destruct (clean _ _) as [[|]| |]|]; simpl;
    rewrite <- ?app_assoc; simpl; eauto.
Qed.

Lemma merged_app (dm : string) a b : merged dm (a ++ b) = (merged dm a ++ merged dm b)%list.
Proof. apply flat_map_app. Qed.

Lemma requests_app a b : requests (a ++ b) = (requests a ++ requests b)%list.
Proof. apply flat_map_app. Qed.

(** The counter of the loop counts the requests made. *)
Lemma turns_requests n :
  state (turns_ n start) = Polling -> length (requests (trace (turns_ n start))) = n.
Proof.
  induction n as [|n IH]; [reflexivity|]. rewrite turns_S. intros H.
  apply step_Polling in H as H'. destruct (step_trace _ H') as (tail & -> & _ & Ht).
  rewrite requests_app. simpl. rewrite Ht, length_app. simpl. rewrite (IH H'). lia.
Qed.

Lemma accumulated_step st : accumulated d st -> accumulated d (step_ st).
Proof.
  intros [Hnd Hc]. destruct (polling_or_not st) as [Hp|Hn];
    [|rewrite step_stopped by done; by split].
  unfold accumulated, step. rewrite Hp.
  set (u := url meta self (Some (collected_subdomains st))).
  destruct (fetch _ u _) as [texts|message] eqn:Ef; simpl.
  2:{ split; [done|]. rewrite <- app_assoc, merged_app. simpl. now rewrite app_nil_r. }
  destruct (clean d texts) as [[|x subs]| |] eqn:Ec; simpl;
    rewrite <- ?app_assoc, merged_app; simpl; rewrite Ec, ?app_nil_r; try (by split).
  set (c := collected_subdomains st) in *.
  set (M := merged d (trace st)) in *.
  rewrite guarded_remove_NoDup by apply NoDup_without_duplicates.
  assert (E : filter (fun y => y <> d) (without_duplicates (c ++ x :: subs))
            = without_duplicates (filter (fun y => y <> d) (M ++ x :: subs)%list)).
  { unfold without_duplicates. rewrite unique_from_filter, !filter_app.
    rewrite (filter_all _ c).
    - rewrite Hc. apply unique_from_app_idem.
    - intros y Hy. rewrite Hc in Hy.
      apply (proj1 (elem_of_without_duplicates _ _)) in Hy.
      apply list_elem_of_filter in Hy. tauto. }
  rewrite E. split; [apply NoDup_without_duplicates | reflexivity].
Qed.

Lemma accumulated_turns n : accumulated d (turns_ n start).
Proof.
  induction n as [|n IH]; [|rewrite turns_S; now apply accumulated_step].
  split; [constructor | reflexivity].
Qed.

(** A turn only appends to the accumulated list. *)
Lemma collected_prefix_step st :
  accumulated d st ->
  collected_subdomains st `prefix_of` collected_subdomains (step_ st).
Proof.
  intros Hacc. destruct (polling_or_not st) as [Hp|Hn];
    [|now rewrite step_stopped].
  destruct (accumulated_step st Hacc) as [_ ->]. destruct Hacc as [_ ->].
  destruct (step_trace st Hp) as (tail & -> & Ht & _).
  rewrite merged_app, filter_app. unfold without_duplicates.
  rewrite unique_from_app. now apply prefix_app_r.
Qed.

Lemma accumulated_no_domain st : accumulated d st -> d ∉ collected_subdomains st.
Proof.
  intros [_ ->] H. apply (proj1 (elem_of_without_duplicates _ _)) in H.
  apply list_elem_of_filter in H. tauto.
Qed.

(** C3: for a domain whose pattern compiles (in this embedding: every
    domain of ordinary characters and dots), after any number of turns
    the accumulated list has no duplicate, does not contain the bare
    target domain, and lists the cleaned results merged so far in the
    order they were first seen; the next turn only appends to it; and the
    list that [run] returns has the same three properties. *)
Theorem run_accumulates (regexp : regex) (n : nat) :
  re_compile d = Compiled regexp ->
  let st := turns_ n start in
  let first_seen :=
    without_duplicates (filter (fun x => x <> d) (merged d (trace st))) in
  NoDup (collected_subdomains st)
  /\ (d ∉ collected_subdomains st)
  /\ collected_subdomains st = first_seen
  /\ collected_subdomains st `prefix_of` collected_subdomains (turns_ (S n) start)
  /\ match run_ n with
     | Some (Returns l) => NoDup l /\ (d ∉ l) /\ l = first_seen
     | _ => True
     end.
Proof.
  intros _ st first_seen. pose proof (accumulated_turns n) as Hacc.
  pose proof (accumulated_no_domain _ Hacc) as Hd. destruct Hacc as [Hnd Hc].
  split; [done|]. split; [done|]. split; [done|]. split.
  - rewrite turns_S. apply collected_prefix_step. by split.
  - unfold run. fold st. destruct (state st); done.
Qed.
End RunFacts.

Lemma run_accumulates_witness :
  NoDup (collected_subdomains
           (turns sample_meta {| domain := "example.com"; exclude_subdomains := None |}
                  (fails_after_first
                     ["http://a.example.com/x"; "example.com/"; "a.example.com?y"]
                     "timeout")
                  1 start))
  /\ ("example.com"
      ∉ collected_subdomains
          (turns sample_meta {| domain := "example.com"; exclude_subdomains := None |}
                 (fails_after_first
                    ["http://a.example.com/x"; "example.com/"; "a.example.com?y"]
                    "timeout")
                 1 start)).
Proof.
  destruct (run_accumulates sample_meta
              {| domain := "example.com"; exclude_subdomains := None |}
              (fails_after_first
                 ["http://a.example.com/x"; "example.com/"; "a.example.com?y"]
                 "timeout")
              (pattern [Lit "e"; Lit "x"; Lit "a"; Lit "m"; Lit "p"; Lit "l"; Lit "e";
                        AnyChar; Lit "c"; Lit "o"; Lit "m"])
              1 eq_refl) as (H1 & H2 & _).
  split; [exact H1 | exact H2].
Defined.

(** With a pattern that compiles, [clean] returns. *)
Lemma clean_compiled (domain : string) regexp texts :
  re_compile domain = Compiled regexp ->
  clean domain texts = Cleaned (flat_map (clean_url regexp) texts).
Proof. intros H. unfold clean. now rewrite H. Qed.

(** A domain of ordinary characters and dots always compiles. *)
Lemma re_compile_plain_domain (domain : string) dom :
  domain_atoms (chars domain) = Some dom ->
  re_compile domain = Compiled (pattern dom).
Proof. intros H. unfold re_compile. now rewrite H. Qed.

Section RunClaims.
Variable meta : Options.
Variable self : PluginBase.
Variable fetch : nat -> string -> string -> fetched.

Abbreviation step_ := (step meta self fetch).
Abbreviation turns_ := (turns meta self fetch).
Abbreviation run_ := (run meta self fetch).
Abbreviation d := (domain self).

Lemma step_no_exception regexp st :
  re_compile d = Compiled regexp ->
  no_exception (state st) -> no_exception (state (step_ st)).
Proof.
  intros Hdom Hst. destruct (polling_or_not st) as [Hp|Hn];
    [|now rewrite step_stopped].
  unfold step. rewrite Hp. destruct (fetch _ _ _) as [texts|message]; simpl.
  - rewrite (clean_compiled _ _ _ Hdom).
    destruct (flat_map _ texts); simpl; unfold no_exception; tauto.
  - unfold no_exception; tauto.
Qed.

Lemma turns_no_exception regexp n :
  re_compile d = Compiled regexp -> no_exception (state (turns_ n start)).
Proof.
  intros Hdom. induction n as [|n IH]; [by left|].
  rewrite turns_S. now apply (step_no_exception regexp).
Qed.

Lemma turns_ge n m st :
  n <= m -> state (turns_ n st) <> Polling -> turns_ m st = turns_ n st.
Proof.
  intros Hle Hst. replace m with (n + (m - n)) by lia.
  rewrite turns_add. now apply turns_stopped.
Qed.
End RunClaims.

Lemma turns_trace meta self fetch n st :
  exists tail, trace (turns meta self fetch n st) = (trace st ++ tail)%list.
Proof.
  revert st. induction n as [|n IH]; intros st; simpl.
  - exists []. now rewrite app_nil_r.
  - destruct (IH (step meta self fetch st)) as (tail & ->).
    destruct (polling_or_not st) as [Hp|Hn].
    + destruct (step_trace meta self fetch st Hp) as (t1 & -> & _).
      rewrite <- app_assoc. eauto.
    + rewrite step_stopped by done. eauto.
Qed.

(** ** C6: the first URL of a run *)

(** C6: with target domain "site.io" and the preset exclusion
    "old.site.io", the first URL that [run] builds and requests has
    exactly one exclusion term, the one for "old.site.io", and none for
    "site.io" itself. *)
Theorem first_url_site_io (meta : Options)
    (fetch : nat -> string -> string -> fetched) (fuel : nat) :
  let self := {| domain := "site.io"; exclude_subdomains := Some ["old.site.io"] |} in
  let first := url meta self (Some []) in
  (exists answer tail,
     trace (turns meta self fetch (S fuel) start)
     = Progress 0 :: Request first answer :: tail)
  /\ first = (search_url meta +:+ "?" +:+ query_param meta +:+ "="
              +:+ include_param meta +:+ "site.io")
             +:+ exclude_terms (exclude_param meta) ["old.site.io"]
  /\ excluded_subdomains self (Some []) = ["old.site.io"]
  /\ ("site.io" ∉ excluded_subdomains self (Some [])).
Proof.
  intros self first. split; [|split; [|split]].
  - destruct (turns_trace meta self fetch fuel (step meta self fetch start))
      as (tail & E).
    destruct (step_trace meta self fetch start eq_refl) as (t1 & E1 & _).
    simpl turns. rewrite E, E1. simpl. eauto.
  - unfold first. now rewrite url_as_terms.
  - reflexivity.
  - intros H. apply list_elem_of_In in H. vm_compute in H.
    destruct H as [H|[]]. discriminate.
Qed.

(** ** C2: a failing request *)

(** The turn in which the request fails. *)
Lemma step_fetch_error meta self fetch st message :
  state st = Polling ->
  fetch (index st) (url meta self (Some (collected_subdomains st)))
        (subdomains_selector meta) = FetchError message ->
  step meta self fetch st
  = {| index := S (index st);
       collected_subdomains := collected_subdomains st;
       trace := (trace st ++
                 [Progress (index st);
                  Request (url meta self (Some (collected_subdomains st)))
                          (FetchError message);
                  Abort message])%list;
       state := Stopped_Error |}.
Proof.
  intros Hp Hf. unfold step. rewrite Hp, Hf. simpl. now rewrite <- app_assoc.
Qed.

(** C2 (as stated) fails for a domain that is not a valid piece of
    regular expression: with domain "(" and a collaborator that answers
    the first request and raises on the second, [run] raises in its first
    turn (re.compile fails inside [clean]) instead of returning what it
    has accumulated. *)
Lemma unbalanced_domain_run_raises :
  run sample_meta {| domain := "("; exclude_subdomains := None |}
      (fails_after_first ["http://a.(/"] "timeout") 1 = Some Raises
  /\ run sample_meta {| domain := "("; exclude_subdomains := None |}
      (fails_after_first ["http://a.(/"] "timeout") 2 = Some Raises.
Proof. split; vm_compute; reflexivity. Qed.

(** C2 (amended): for a domain whose pattern compiles (in this
    embedding: every domain of ordinary characters and dots), if the loop reaches its request
    number n+1 (n turns went through) and that request raises, then [run]
    returns, with any larger bound on the turns, exactly the list
    accumulated in the first n turns, which is the deduplicated merge of
    their cleaned results; the failed request is logged once and followed
    by the abort message only (no retry), n+1 requests were made in all;
    and whatever the collaborator does, [run] does not raise. *)
Theorem fetch_error_returns_accumulated (meta : Options) (self : PluginBase)
    (fetch : nat -> string -> string -> fetched) (regexp : regex)
    (n : nat) (message : string) :
  re_compile (domain self) = Compiled regexp ->
  state (turns meta self fetch n start) = Polling ->
  fetch n (url meta self
             (Some (collected_subdomains (turns meta self fetch n start))))
        (subdomains_selector meta) = FetchError message ->
  let st := turns meta self fetch n start in
  let u := url meta self (Some (collected_subdomains st)) in
  (forall fuel, n < fuel ->
     run meta self fetch fuel = Some (Returns (collected_subdomains st))
     /\ state (turns meta self fetch fuel start) = Stopped_Error
     /\ trace (turns meta self fetch fuel start)
        = (trace st ++ [Progress n; Request u (FetchError message); Abort message])%list
     /\ length (requests (trace (turns meta self fetch fuel start))) = S n)
  /\ collected_subdomains st
     = without_duplicates
         (filter (fun x => x <> domain self) (merged (domain self) (trace st)))
  /\ (forall fetch' fuel,
        run meta self fetch' fuel <> Some Raises
        /\ run meta self fetch' fuel <> Some Unknown).
Proof.
  intros Hdom Hp Hf st u. split; [|split].
  - intros fuel Hlt.
    assert (Hi : index st = n) by (unfold st; now rewrite turns_index).
    assert (Hs : turns meta self fetch (S n) start
                 = {| index := S n;
                      collected_subdomains := collected_subdomains st;
                      trace := (trace st ++ [Progress n; Request u (FetchError message);
                                             Abort message])%list;
                      state := Stopped_Error |}).
    { rewrite turns_S. fold st. rewrite (step_fetch_error _ _ _ st message Hp).
      - now rewrite Hi.
      - now rewrite Hi. }
    assert (Hfuel : turns meta self fetch fuel start = turns meta self fetch (S n) start).
    { apply turns_ge; [lia|]. now rewrite Hs. }
    unfold run. rewrite Hfuel, Hs. simpl. repeat split.
    rewrite requests_app, length_app. simpl.
    unfold st. rewrite turns_requests by done. lia.
  - apply (accumulated_turns meta self fetch n).
  - intros fetch' fuel. unfold run.
    destruct (turns_no_exception meta self fetch' regexp fuel Hdom) as [-> | [-> | ->]];
      split; discriminate.
Qed.

Lemma fetch_error_returns_accumulated_witness :
  run sample_meta {| domain := "example.com"; exclude_subdomains := None |}
      (fails_after_first ["http://a.example.com/x"] "timeout") 2
  = Some (Returns ["a.example.com"]).
Proof.
  exact (proj1 (proj1 (fetch_error_returns_accumulated sample_meta
           {| domain := "example.com"; exclude_subdomains := None |}
           (fails_after_first ["http://a.example.com/x"] "timeout")
           (pattern [Lit "e"; Lit "x"; Lit "a"; Lit "m"; Lit "p"; Lit "l"; Lit "e";
                     AnyChar; Lit "c"; Lit "o"; Lit "m"])
           1 "timeout" eq_refl eq_refl eq_refl) 2 (le_n 2))).
Defined.

(** ** C4: no fragments *)

(** C4 (as stated) fails for a domain that is not a valid piece of
    regular expression: with domain "(" and a collaborator that never
    returns a fragment, the first turn does not end in the no-new-results
    state; [clean] raises. *)
Lemma unbalanced_domain_no_fragments :
  run sample_meta {| domain := "("; exclude_subdomains := None |} finds_nothing 1
  = Some Raises.
Proof. vm_compute. reflexivity. Qed.

(** C4 (amended): for a domain whose pattern compiles (in this
    embedding: every domain of ordinary characters and dots) and any
    preset exclusions, if the
    collaborator always returns zero fragments then [run] stops in its
    first turn, in the no-new-results state, after one URL built and one
    request made, and returns the empty list. *)
Theorem no_fragments_one_turn (meta : Options) (self : PluginBase)
    (fetch : nat -> string -> string -> fetched) (regexp : regex) (fuel : nat) :
  re_compile (domain self) = Compiled regexp ->
  (forall n u selector, fetch n u selector = Fragments []) ->
  0 < fuel ->
  run meta self fetch fuel = Some (Returns [])
  /\ state (turns meta self fetch fuel start) = Stopped_NoNewResults
  /\ trace (turns meta self fetch fuel start)
     = [Progress 0; Request (url meta self (Some [])) (Fragments []); Summary 0]
  /\ requests (trace (turns meta self fetch fuel start)) = [url meta self (Some [])].
Proof.
  intros Hdom Hf Hfuel.
  assert (Hs : turns meta self fetch 1 start
               = {| index := 1; collected_subdomains := [];
                    trace := [Progress 0; Request (url meta self (Some [])) (Fragments []);
                              Summary 0];
                    state := Stopped_NoNewResults |}).
  { simpl. unfold step. simpl. rewrite Hf, (clean_compiled _ _ _ Hdom). reflexivity. }
  assert (E : turns meta self fetch fuel start = turns meta self fetch 1 start).
  { apply turns_ge; [lia|]. now rewrite Hs. }
  unfold run. rewrite E, Hs. simpl. repeat split.
Qed.

Lemma no_fragments_one_turn_witness :
  run sample_meta {| domain := "example.com"; exclude_subdomains := Some ["old.example.com"] |}
      finds_nothing 1 = Some (Returns []).
Proof.
  exact (proj1 (no_fragments_one_turn sample_meta
           {| domain := "example.com"; exclude_subdomains := Some ["old.example.com"] |}
           finds_nothing
           (pattern [Lit "e"; Lit "x"; Lit "a"; Lit "m"; Lit "p"; Lit "l"; Lit "e";
                     AnyChar; Lit "c"; Lit "o"; Lit "m"])
           1 eq_refl (fun _ _ _ => eq_refl) (le_n 1))).
Defined.

(** ** C8: the target domain is not validated *)

(** C8 (as stated) fails: the empty domain is accepted by the
    constructor, the loop starts, a URL is built from it, the request is
    made and its results are returned. *)
Lemma empty_domain_is_run :
  init "" ∅ = inl {| domain := ""; exclude_subdomains := None |}
  /\ trace (turns sample_meta {| domain := ""; exclude_subdomains := None |}
                  (empty_after_first ["ab/"]) 1 start)
     = [Progress 0;
        Request "https://www.google.com/search?q=site:" (Fragments ["ab/"]);
        Sleep 5]
  /\ run sample_meta {| domain := ""; exclude_subdomains := None |}
         (empty_after_first ["ab/"]) 2
     = Some (Returns ["ab"]).
Proof. split; [|split]; vm_compute; reflexivity. Qed.

(** C8 (amended): no target domain is rejected. Whatever the domain,
    empty or malformed included, the constructor stores it (alone or
    with the keyword [exclude_subdomains]), and [run] enters the loop:
    its first actions are the progress line and the request of the URL
    built from the domain. *)
Theorem run_starts_with_any_domain (meta : Options) (domain : string)
    (exclude : option (list string)) (l : list string)
    (fetch : nat -> string -> string -> fetched) (fuel : nat) :
  let self := {| domain := domain; exclude_subdomains := exclude |} in
  init domain ∅ = inl {| domain := domain; exclude_subdomains := None |}
  /\ init domain {[ "exclude_subdomains" := l ]}
     = inl {| domain := domain; exclude_subdomains := Some l |}
  /\ exists tail,
       trace (turns meta self fetch (S fuel) start)
       = Progress 0
         :: Request (url meta self (Some []))
                    (fetch 0 (url meta self (Some [])) (subdomains_selector meta))
         :: tail.
Proof.
  intros self. split; [|split].
  - unfold init. rewrite delete_empty, lookup_empty. reflexivity.
  - unfold init. rewrite delete_singleton_eq, lookup_singleton_eq. reflexivity.
  - destruct (turns_trace meta self fetch fuel (step meta self fetch start))
      as (tail & E).
    destruct (step_trace meta self fetch start eq_refl) as (t1 & E1 & _).
    simpl turns. rewrite E, E1. simpl. eauto.
Qed.

(** ** C9: the configuration of a new plugin class *)

Section MetaFacts.
Import Registry.
Variable Options_ : option attrs -> attrs.
Variable is_abstract_ : attrs -> bool.

(** The loop over the attributes of the base [_meta]. *)
Lemma inherit_lookup (meta : option attrs) (own base : attrs) (attr : string) :
  map_fold (fun a v acc => if hasattr meta a then acc else <[a := v]> acc) own base
    !! attr
  = if hasattr meta attr then own !! attr
    else match base !! attr with
         | Some v => Some v
         | None => own !! attr
         end.
Proof.
  revert attr.
  apply (map_fold_weak_ind
           (fun (r : attrs) (m : attrs) => forall attr,
              r !! attr = if hasattr meta attr then own !! attr
                          else match m !! attr with
                               | Some v => Some v
                               | None => own !! attr
                               end)).
  - intros attr. rewrite lookup_empty. now destruct (hasattr meta attr).
  - intros a v m r Hm IH attr. destruct (decide (a = attr)) as [->|Hne].
    + rewrite lookup_insert_eq. destruct (hasattr meta attr) eqn:Hh.
      * rewrite IH, Hh. reflexivity.
      * now rewrite lookup_insert_eq.
    + rewrite (lookup_insert_ne m) by done. destruct (hasattr meta a).
      * apply IH.
      * rewrite lookup_insert_ne by done. apply IH.
Qed.

(** C9 (amended): the [_meta] of a new class takes every attribute that
    its base's [_meta] holds and its own [Meta] does not declare from the
    base's [_meta], provided that base (the immediate parent) is not
    abstract; every attribute that [Meta] declares, and every attribute
    at all when the base is abstract or there is none, is as
    [Options(meta)] made it. The result is a value computed once from the
    two configurations. *)
Theorem new_meta_lookup (meta base_meta : option attrs) (attr : string) :
  new_meta Options_ is_abstract_ meta base_meta !! attr
  = match base_meta with
    | Some base =>
        if is_abstract_ base then Options_ meta !! attr
        else if hasattr meta attr then Options_ meta !! attr
        else match base !! attr with
             | Some v => Some v
             | None => Options_ meta !! attr
             end
    | None => Options_ meta !! attr
    end.
Proof.
  unfold new_meta. destruct base_meta as [base|]; [|reflexivity].
  destruct (is_abstract_ base); [reflexivity|]. simpl. apply inherit_lookup.
Qed.
End MetaFacts.

(** C9 (as stated) fails: below a concrete class A that declares
    [search_url] and its abstract subclass B, a class C that declares
    nothing is concrete and has A as its nearest concrete ancestor, but
    it does not get A's [search_url]: nothing is inherited through the
    abstract B. *)
Lemma nothing_inherited_through_abstract_parent :
  ~ Registry.inherits_from_nearest_concrete
      Registry.declared_options Registry.declared_abstract.
Proof.
  intros H.
  specialize (H [Some {[ "search_url" := Registry.VStr "https://www.google.com/search" ]};
                 Some {[ "abstract" := Registry.VBool true ]}]
                None "search_url"
                {[ "search_url" := Registry.VStr "https://www.google.com/search" ]}).
  vm_compute in H. specialize (H eq_refl eq_refl eq_refl). discriminate.
Qed.

(** * Further properties of the code *)

(** ** [clean] on a list of texts *)

Lemma elem_of_clean_url r t (h : string) :
  h ∈ clean_url r t <-> clean_url r t = [h].
Proof.
  destruct (clean_url_cases r t) as [->|(h0 & _ & ->)].
  - split; [intros H; inversion H | discriminate].
  - rewrite list_elem_of_singleton. split; [intros ->; reflexivity | intros [= ->]; reflexivity].
Qed.

Lemma clean_one_text (domain : string) dom t (h : string) :
  domain_atoms (chars domain) = Some dom ->
  clean domain [t] = Cleaned [h] <-> clean_url (pattern dom) t = [h].
Proof.
  intros Hdom. rewrite (clean_compiled _ _ _ (re_compile_plain_domain _ _ Hdom)).
  simpl. rewrite app_nil_r. split; [intros [= ->] | intros ->]; reflexivity.
Qed.

Lemma length_flat_map_clean_url r urls :
  length (flat_map (clean_url r) urls) <= length urls.
Proof.
  induction urls as [|t urls IH]; simpl; [lia|]. rewrite length_app.
  destruct (clean_url_cases r t) as [->|(h & _ & ->)]; simpl; lia.
Qed.

(** X1: [clean] goes through the texts in order and keeps at most one value
    per text: the result for a concatenation is the concatenation of the
    results, it is never longer than the input, and a value is in it
    exactly when one of the texts alone yields it. *)
Theorem clean_texts_in_order (domain : string) (dom : list atom)
    (us vs : list string) :
  domain_atoms (chars domain) = Some dom ->
  exists l1 l2,
    clean domain us = Cleaned l1
    /\ clean domain vs = Cleaned l2
    /\ clean domain (us ++ vs) = Cleaned (l1 ++ l2)
    /\ length l1 <= length us
    /\ forall h, h ∈ l1 <-> exists t, t ∈ us /\ clean domain [t] = Cleaned [h].
Proof.
  intros Hdom. pose proof (re_compile_plain_domain _ _ Hdom) as Hc.
  exists (flat_map (clean_url (pattern dom)) us), (flat_map (clean_url (pattern dom)) vs).
  rewrite !(clean_compiled _ _ _ Hc). split; [done|]. split; [done|].
  split; [by rewrite flat_map_app|]. split; [apply length_flat_map_clean_url|].
  intros h. rewrite list_elem_of_In, in_flat_map. split.
  - intros (t & Ht & Hh). exists t. rewrite <- list_elem_of_In in Ht, Hh.
    split; [done|]. apply (clean_one_text _ _ _ _ Hdom). now apply elem_of_clean_url.
  - intros (t & Ht & Hh). exists t. rewrite <- !list_elem_of_In.
    split; [done|]. apply elem_of_clean_url. now apply (clean_one_text _ _ _ _ Hdom).
Qed.

Lemma clean_texts_in_order_witness :
  exists l1 l2,
    clean "example.com" ["http://a.example.com/x"; "noise"] = Cleaned l1
    /\ clean "example.com" ["b.example.com?q"] = Cleaned l2
    /\ clean "example.com" (["http://a.example.com/x"; "noise"] ++ ["b.example.com?q"])
       = Cleaned (l1 ++ l2)
    /\ length l1 <= 2
    /\ forall h, h ∈ l1 <->
         exists t, t ∈ ["http://a.example.com/x"; "noise"]
                   /\ clean "example.com" [t] = Cleaned [h].
Proof.
  exact (clean_texts_in_order "example.com"
           [Lit "e"; Lit "x"; Lit "a"; Lit "m"; Lit "p"; Lit "l"; Lit "e";
            AnyChar; Lit "c"; Lit "o"; Lit "m"]
           ["http://a.example.com/x"; "noise"] ["b.example.com?q"] eq_refl).
Defined.

(** X2: A text without "/" and without "?" is always discarded. *)
Theorem clean_needs_separator (domain : string) (dom : list atom)
    (urls : list string) :
  domain_atoms (chars domain) = Some dom ->
  Forall (fun t => ("/"%char ∉ chars t) /\ ("?"%char ∉ chars t)) urls ->
  clean domain urls = Cleaned [].
Proof.
  intros Hdom Hall.
  rewrite (clean_compiled _ _ _ (re_compile_plain_domain _ _ Hdom)). f_equal.
  induction Hall as [|t urls [Hs Hq] _ IH]; simpl; [reflexivity|]. rewrite IH, app_nil_r.
  destruct (clean_url_cases (pattern dom) t) as [->|(h & _ & E)]; [reflexivity|].
  exfalso. apply clean_url_accepts in E as (_ & sc & (_ & _ & c & r & Hc & Ht) & _).
  assert (Hin : c ∈ chars t).
  { rewrite Ht, !elem_of_app, elem_of_cons. tauto. }
  destruct Hc as [-> | ->]; contradiction.
Qed.

Lemma clean_needs_separator_witness :
  clean "example.com" ["sub.example.com"; "http:sub.example.com"] = Cleaned [].
Proof.
  apply (clean_needs_separator "example.com"
           [Lit "e"; Lit "x"; Lit "a"; Lit "m"; Lit "p"; Lit "l"; Lit "e";
            AnyChar; Lit "c"; Lit "o"; Lit "m"]); [reflexivity|].
  repeat constructor; intros H; apply list_elem_of_In in H; vm_compute in H;
    repeat (destruct H as [H|H]; [discriminate|]); exact H.
Defined.


Lemma str_app a b : str (a ++ b) = str a +:+ str b.
Proof.
  induction a as [|x a IH]; [reflexivity|]. simpl. rewrite append_cons. now f_equal.
Qed.







(** ** More on the enumeration loop *)

Lemma step_continues meta self fetch st texts x l :
  state st = Polling ->
  fetch (index st) (url meta self (Some (collected_subdomains st)))
        (subdomains_selector meta) = Fragments texts ->
  clean (domain self) texts = Cleaned (x :: l) ->
  state (step meta self fetch st) = Polling.
Proof. intros Hp Hf Hc. unfold step. rewrite Hp, Hf, Hc. reflexivity. Qed.

(** X5: The loop stops on an empty page, not on a page without news: as long
    as every page yields at least one accepted text, be it the same one
    again, the loop keeps polling and [run] does not return; after n
    turns it has made n requests. *)
Theorem run_polls_while_pages_yield (meta : Options) (self : PluginBase)
    (fetch : nat -> string -> string -> fetched) (fuel : nat) :
  (forall n u selector, exists texts x l,
      fetch n u selector = Fragments texts
      /\ clean (domain self) texts = Cleaned (x :: l)) ->
  state (turns meta self fetch fuel start) = Polling
  /\ run meta self fetch fuel = None
  /\ length (requests (trace (turns meta self fetch fuel start))) = fuel.
Proof.
  intros Hf.
  assert (Hp : forall n, state (turns meta self fetch n start) = Polling).
  { induction n as [|n IH]; [reflexivity|]. rewrite turns_S.
    destruct (Hf (index (turns meta self fetch n start))
                 (url meta self (Some (collected_subdomains (turns meta self fetch n start))))
                 (subdomains_selector meta)) as (texts & x & l & Hfe & Hc).
    exact (step_continues _ _ _ _ _ _ _ IH Hfe Hc). }
  split; [apply Hp|]. split.
  - unfold run. now rewrite Hp.
  - apply turns_requests, Hp.
Qed.

Lemma run_polls_while_pages_yield_witness :
  run sample_meta {| domain := "example.com"; exclude_subdomains := None |}
      (always_finds ["http://a.example.com/"]) 7 = None.
Proof.
  apply (run_polls_while_pages_yield sample_meta
           {| domain := "example.com"; exclude_subdomains := None |}
           (always_finds ["http://a.example.com/"]) 7).
  intros n u selector. exists ["http://a.example.com/"], "a.example.com", [].
  split; [reflexivity | vm_compute; reflexivity].
Defined.

Lemma paced_app delay ready a b :
  paced delay ready (a ++ b)
  = paced delay ready a && paced delay (ready_after delay ready a) b.
Proof.
  revert ready. induction a as [|e a IH]; intros ready; [reflexivity|].
  destruct e; simpl; rewrite IH; try reflexivity. now rewrite andb_assoc.
Qed.

Lemma ready_after_app delay ready a b :
  ready_after delay ready (a ++ b)
  = ready_after delay (ready_after delay ready a) b.
Proof.
  revert ready. induction a as [|e a IH]; intros ready; [reflexivity|].
  destruct e; simpl; apply IH.
Qed.

Lemma paced_step meta self fetch st :
  paced (request_delay meta) true (trace st) = true ->
  (state st = Polling -> ready_after (request_delay meta) true (trace st) = true) ->
  paced (request_delay meta) true (trace (step meta self fetch st)) = true
  /\ (state (step meta self fetch st) = Polling ->
      ready_after (request_delay meta) true (trace (step meta self fetch st)) = true).
Proof.
  intros Hpaced Hready. destruct (polling_or_not st) as [Hp|Hn];
    [|rewrite step_stopped by done; by split].
  specialize (Hready Hp). unfold step. rewrite Hp.
  destruct (fetch _ _ _) as [texts|message]; [destruct (clean _ _) as [[|x l]| |]|];
    simpl; rewrite ?paced_app, ?ready_after_app, Hpaced, Hready; simpl;
    rewrite ?N.eqb_refl, ?orb_true_r; split; (reflexivity || discriminate).
Qed.

(** X7: For a domain whose pattern compiles (in this embedding: every
    domain of ordinary characters and dots), between two requests of a
    run there is always a sleep of the configured delay: no request
    follows another one directly. *)
Theorem run_is_paced (meta : Options) (self : PluginBase)
    (fetch : nat -> string -> string -> fetched) (regexp : regex) (n : nat) :
  re_compile (domain self) = Compiled regexp ->
  paced (request_delay meta) true (trace (turns meta self fetch n start)) = true.
Proof.
  intros _.
  assert (H : paced (request_delay meta) true (trace (turns meta self fetch n start)) = true
              /\ (state (turns meta self fetch n start) = Polling ->
                  ready_after (request_delay meta) true
                    (trace (turns meta self fetch n start)) = true)).
  { induction n as [|n [IH1 IH2]]; [by split|]. rewrite turns_S. now apply paced_step. }
  apply H.
Qed.

Lemma run_is_paced_witness :
  paced 5 true
    (trace (turns sample_meta {| domain := "example.com"; exclude_subdomains := None |}
                  (always_finds ["http://a.example.com/"]) 3 start))
  = true.
Proof.
  exact (run_is_paced sample_meta
           {| domain := "example.com"; exclude_subdomains := None |}
           (always_finds ["http://a.example.com/"])
           (pattern [Lit "e"; Lit "x"; Lit "a"; Lit "m"; Lit "p"; Lit "l"; Lit "e";
                     AnyChar; Lit "c"; Lit "o"; Lit "m"])
           3 eq_refl).
Defined.

(** X8: The last thing a stopped run logged: after an empty page, the summary
    with the number of subdomains that [run] returns; after a failed
    request, that request and the abort line with the message of its
    exception. While the loop polls, the last event is the sleep. *)
Theorem run_last_event (meta : Options) (self : PluginBase)
    (fetch : nat -> string -> string -> fetched) (n : nat) :
  let st := turns meta self fetch n start in
  match state st with
  | Stopped_NoNewResults =>
      exists log, trace st = (log ++ [Summary (length (collected_subdomains st))])%list
  | Stopped_Error =>
      exists log u message,
        trace st = (log ++ [Request u (FetchError message); Abort message])%list
  | Polling =>
      n = 0 \/ exists log, trace st = (log ++ [Sleep (request_delay meta)])%list
  | _ => True
  end.
Proof.
  induction n as [|n IH]; [by left|]. rewrite turns_S. simpl in IH.
  set (st := turns meta self fetch n start) in *.
  destruct (polling_or_not st) as [Hp|Hn].
  - unfold step. rewrite Hp.
    destruct (fetch _ _ _) as [texts|message]; [destruct (clean _ _) as [[|x l]| |]|];
      simpl; try done.
    + eexists. reflexivity.
    + right. eexists. reflexivity.
    + eexists (trace st ++ [Progress (index st)])%list, _, message.
      now rewrite <- !app_assoc.
  - rewrite step_stopped by done. simpl.
    destruct (state st); try done.
Qed.

Lemma elem_of_merged (dm x : string) log :
  x ∈ merged dm log ->
  exists u texts l,
    Request u (Fragments texts) ∈ log /\ clean dm texts = Cleaned l /\ x ∈ l.
Proof.
  unfold merged. rewrite list_elem_of_In, in_flat_map. intros (e & He & Hx).
  apply list_elem_of_In in He.
  destruct e as [| u [texts|] | | |]; simpl in Hx; try (destruct Hx; fail).
  destruct (clean dm texts) as [l| |] eqn:Hc; try (destruct Hx; fail).
  exists u, texts, l. split; [exact He|]. split; [exact Hc|]. now apply list_elem_of_In.
Qed.

(** X9: Everything [run] has accumulated is a host read from a fetched text:
    it is not empty, it is not the bare domain, it ends with a match of
    the domain (a domain without dots is a proper suffix of it), and one
    of the texts answered to a request yields it when cleaned alone. *)
Theorem run_results_are_hosts (meta : Options) (self : PluginBase)
    (fetch : nat -> string -> string -> fetched) (dom : list atom) (n : nat) :
  domain_atoms (chars (domain self)) = Some dom ->
  let st := turns meta self fetch n start in
  Forall (fun x =>
            x <> "" /\ x <> domain self /\ host dom (chars x)
            /\ ("."%char ∉ chars (domain self) ->
                exists p, p <> "" /\ x = p +:+ domain self)
            /\ exists u texts t,
                 Request u (Fragments texts) ∈ trace st /\ t ∈ texts
                 /\ clean (domain self) [t] = Cleaned [x])
         (collected_subdomains st).
Proof.
  intros Hdom st. apply Forall_forall. intros x Hx.
  destruct (accumulated_turns meta self fetch n) as [_ Hc]. fold st in Hc.
  rewrite Hc in Hx. apply (proj1 (elem_of_without_duplicates _ _)) in Hx.
  apply list_elem_of_filter in Hx as [Hxd Hx].
  apply elem_of_merged in Hx as (u & texts & l & Hreq & Hcl & Hxl).
  rewrite (clean_compiled _ _ _ (re_compile_plain_domain _ _ Hdom)) in Hcl.
  injection Hcl as <-. apply list_elem_of_In, in_flat_map in Hxl as (t & Ht & Hxt).
  apply list_elem_of_In in Ht, Hxt. apply elem_of_clean_url in Hxt.
  pose proof Hxt as Hacc.
  apply clean_url_accepts in Hacc as (Hne & sc & (_ & Hhost & _) & _).
  split; [exact Hne|]. split; [exact Hxd|]. split; [exact Hhost|]. split.
  - intros Hdots. destruct Hhost as (p & w & Hpw & _ & Hw).
    apply (matches_literal_domain _ _ _ Hdom Hdots) in Hw as ->.
    assert (E : x = str p +:+ domain self).
    { rewrite <- (string_of_list_ascii_of_string x), Hpw, str_app.
      now rewrite string_of_list_ascii_of_string. }
    exists (str p). split; [|exact E]. intros Hp. rewrite Hp in E. now apply Hxd.
  - exists u, texts, t. split; [exact Hreq|]. split; [exact Ht|].
    now apply (clean_one_text _ _ _ _ Hdom).
Qed.

Lemma run_results_are_hosts_witness :
  Forall (fun x => x <> "" /\ x <> "example.com")
    (collected_subdomains
       (turns sample_meta {| domain := "example.com"; exclude_subdomains := None |}
              (fails_after_first ["http://a.example.com/x"; "example.com/"] "timeout")
              1 start)).
Proof.
  eapply Forall_impl.
  - exact (run_results_are_hosts sample_meta
             {| domain := "example.com"; exclude_subdomains := None |}
             (fails_after_first ["http://a.example.com/x"; "example.com/"] "timeout")
             [Lit "e"; Lit "x"; Lit "a"; Lit "m"; Lit "p"; Lit "l"; Lit "e";
              AnyChar; Lit "c"; Lit "o"; Lit "m"]
             1 eq_refl).
  - intros x (H1 & H2 & _). split; [exact H1 | exact H2].
Defined.

Lemma exclude_terms_app ep a b :
  exclude_terms ep (a ++ b) = exclude_terms ep a +:+ exclude_terms ep b.
Proof.
  induction a as [|x a IH]; [reflexivity|]. cbn [app exclude_terms foldr].
  fold (exclude_terms ep (a ++ b)). fold (exclude_terms ep a).
  rewrite IH. now rewrite !append_assoc.
Qed.

(** X10: For a domain whose pattern compiles (in this embedding: every
    domain of ordinary characters and dots), the URL of every request of
    a run excludes the subdomains accumulated so far, in the order they
    were found, and after them the preset exclusions that are not among
    them, each once. *)
Theorem run_excludes_found_then_presets (meta : Options) (self : PluginBase)
    (fetch : nat -> string -> string -> fetched) (regexp : regex) (n : nat) :
  re_compile (domain self) = Compiled regexp ->
  let st := turns meta self fetch n start in
  let found := collected_subdomains st in
  let presets := unique_from found (default [] (exclude_subdomains self)) in
  excluded_subdomains self (Some found) = (found ++ presets)%list
  /\ url meta self (Some found)
     = (search_url meta +:+ "?" +:+ query_param meta +:+ "="
        +:+ include_param meta +:+ domain self)
       +:+ exclude_terms (exclude_param meta) found
       +:+ exclude_terms (exclude_param meta) presets
  /\ (state st = Polling ->
      requests (trace (turns meta self fetch (S n) start))
      = (requests (trace st) ++ [url meta self (Some found)])%list).
Proof.
  intros _ st found presets.
  assert (E : excluded_subdomains self (Some found) = (found ++ presets)%list).
  { unfold excluded_subdomains, without_duplicates. simpl. rewrite unique_from_app.
    rewrite app_nil_r. f_equal. apply without_duplicates_NoDup.
    apply (accumulated_turns meta self fetch n). }
  split; [exact E|]. split.
  - rewrite url_as_terms, E, exclude_terms_app. reflexivity.
  - intros Hp. rewrite turns_S. fold st.
    destruct (step_trace meta self fetch st Hp) as (tail & -> & _ & Ht).
    rewrite requests_app. simpl. now rewrite Ht.
Qed.

Lemma run_excludes_found_then_presets_witness :
  excluded_subdomains
    {| domain := "example.com";
       exclude_subdomains := Some ["old.example.com"; "a.example.com"] |}
    (Some (collected_subdomains
             (turns sample_meta
                    {| domain := "example.com";
                       exclude_subdomains := Some ["old.example.com"; "a.example.com"] |}
                    (always_finds ["http://a.example.com/"]) 1 start)))
  = ["a.example.com"; "old.example.com"].
Proof.
  exact (proj1 (run_excludes_found_then_presets sample_meta
           {| domain := "example.com";
              exclude_subdomains := Some ["old.example.com"; "a.example.com"] |}
           (always_finds ["http://a.example.com/"])
           (pattern [Lit "e"; Lit "x"; Lit "a"; Lit "m"; Lit "p"; Lit "l"; Lit "e";
                     AnyChar; Lit "c"; Lit "o"; Lit "m"])
           1 eq_refl)).
Defined.

(** ** The constructor *)

Lemma other_keywords_empty (kwargs : gmap string (list string)) :
  delete "exclude_subdomains" kwargs = ∅
  <-> forall k, is_Some (kwargs !! k) -> k = "exclude_subdomains".
Proof.
  rewrite map_empty. split.
  - intros H k Hk. destruct (decide (k = "exclude_subdomains")) as [|Hne]; [done|].
    specialize (H k). rewrite lookup_delete_ne in H by done.
    rewrite H in Hk. now destruct Hk.
  - intros H k. destruct (decide ("exclude_subdomains" = k)) as [<-|Hne].
    + apply lookup_delete_eq.
    + rewrite lookup_delete_ne by done.
      destruct (kwargs !! k) eqn:E; [|reflexivity].
      destruct Hne. symmetry. apply H. now rewrite E.
Qed.

(** X11: [__init__] succeeds exactly when no keyword other than
    [exclude_subdomains] is given, and then stores the domain and that
    option as they come; otherwise the error names exactly the other
    keywords. The domain plays no part in it. *)
Theorem init_rejects_unknown_keywords (domain : string)
    (kwargs : gmap string (list string)) :
  (forall self,
     init domain kwargs = inl self <->
     (forall k, is_Some (kwargs !! k) -> k = "exclude_subdomains")
     /\ self = {| domain := domain;
                  exclude_subdomains := kwargs !! "exclude_subdomains" |})
  /\ (forall names,
        init domain kwargs = inr names ->
        names <> []
        /\ forall k, k ∈ names <-> k <> "exclude_subdomains" /\ is_Some (kwargs !! k)).
Proof.
  unfold init. case_bool_decide as E.
  - split.
    + intros self. rewrite <- other_keywords_empty. split.
      * intros [= <-]. by split.
      * intros [_ ->]. reflexivity.
    + intros names [=].
  - split.
    + intros self. rewrite <- other_keywords_empty. split; [intros [=] | intros [? _]; done].
    + intros names [= <-]. split.
      * intros Hnil. apply map_eq_nil in Hnil. now apply map_to_list_empty_iff in Hnil.
      * intros k. rewrite list_elem_of_In, in_map_iff. split.
        -- intros ([k' v] & <- & Hin). apply list_elem_of_In, elem_of_map_to_list in Hin.
           simpl. apply lookup_delete_Some in Hin as [Hne Hv].
           split; [congruence | by rewrite Hv].
        -- intros [Hne [v Hv]]. exists (k, v). split; [reflexivity|].
           apply list_elem_of_In, elem_of_map_to_list, lookup_delete_Some.
           split; [congruence | exact Hv].
Qed.

(** ** Inheritance along a chain of classes *)

Section ChainFacts.
Import Registry.
Variable Options_ : option attrs -> attrs.
Variable is_abstract_ : attrs -> bool.

Lemma new_meta_inherits (meta : option attrs) (base : attrs) (attr : string) v :
  is_abstract_ base = false -> hasattr meta attr = false -> base !! attr = Some v ->
  new_meta Options_ is_abstract_ meta (Some base) !! attr = Some v.
Proof.
  intros Hb Hm Hv. unfold new_meta. rewrite Hb. simpl.
  rewrite inherit_lookup, Hm, Hv. reflexivity.
Qed.

(** X12: An attribute that a class holds reaches every class below it, as
    long as no class on the way declares it and every class on the way is
    concrete: the copy from the immediate base composes down the chain. *)
Theorem inherited_down_the_chain (base : attrs) (chain : list (option attrs))
    (attr : string) (v : value) :
  base !! attr = Some v ->
  is_abstract_ base = false ->
  Forall (fun meta => hasattr meta attr = false) chain ->
  Forall (fun m => is_abstract_ m = false)
         (define Options_ is_abstract_ (Some base) chain) ->
  Forall (fun m => m !! attr = Some v)
         (define Options_ is_abstract_ (Some base) chain).
Proof.
  revert base. induction chain as [|meta chain IH]; intros base Hv Hb Hdecl Hconc;
    simpl; [constructor|].
  apply Forall_cons in Hdecl as [Hm Hdecl]. simpl in Hconc.
  apply Forall_cons in Hconc as [Hb' Hconc].
  pose proof (new_meta_inherits meta base attr v Hb Hm Hv) as Hv'.
  constructor; [exact Hv'|]. now apply IH.
Qed.
End ChainFacts.

Lemma inherited_down_the_chain_witness :
  Forall (fun m : gmap string Registry.value =>
            m !! "search_url" = Some (Registry.VStr "https://www.google.com/search"))
    (Registry.define Registry.declared_options Registry.declared_abstract
       (Some {[ "search_url" := Registry.VStr "https://www.google.com/search" ]})
       [None; Some {[ "query_param" := Registry.VStr "q" ]}]).
Proof.
  apply (inherited_down_the_chain Registry.declared_options Registry.declared_abstract).
  - reflexivity.
  - reflexivity.
  - repeat constructor.
  - repeat constructor.
Defined.

(** ** A page without news *)

Lemma filter_none (P : string -> Prop) `{!forall x, Decision (P x)} (l : list string) :
  (forall x, x ∈ l -> ~ P x) -> filter P l = [].
Proof.
  induction l as [|x l IH]; intros Hall; [reflexivity|].
  rewrite filter_cons_False by (apply Hall; left). apply IH.
  intros y Hy. apply Hall. now right.
Qed.

(** X6: A page that yields only subdomains already accumulated (or the bare
    domain) changes nothing in the accumulated list and does not stop the
    loop: the turn ends with the sleep and the next request follows. *)
Theorem run_page_without_news (meta : Options) (self : PluginBase)
    (fetch : nat -> string -> string -> fetched) (n : nat)
    (texts : list string) (x : string) (l : list string) :
  state (turns meta self fetch n start) = Polling ->
  fetch n (url meta self
             (Some (collected_subdomains (turns meta self fetch n start))))
        (subdomains_selector meta) = Fragments texts ->
  clean (domain self) texts = Cleaned (x :: l) ->
  (forall y, y ∈ x :: l ->
     y ∈ collected_subdomains (turns meta self fetch n start) \/ y = domain self) ->
  state (turns meta self fetch (S n) start) = Polling
  /\ collected_subdomains (turns meta self fetch (S n) start)
     = collected_subdomains (turns meta self fetch n start)
  /\ run meta self fetch (S n) = None.
Proof.
  intros Hp Hf Hc Hold.
  pose proof (accumulated_turns meta self fetch n) as Hacc.
  pose proof Hacc as Hd. apply accumulated_no_domain in Hd.
  destruct Hacc as [Hnd _].
  assert (Hi : index (turns meta self fetch n start) = n)
    by now rewrite turns_index.
  set (st := turns meta self fetch n start) in *.
  assert (Hs : state (turns meta self fetch (S n) start) = Polling
               /\ collected_subdomains (turns meta self fetch (S n) start)
                  = collected_subdomains st).
  { rewrite turns_S. fold st. unfold step. rewrite Hp, Hi, Hf, Hc. simpl.
    split; [reflexivity|].
    rewrite guarded_remove_NoDup by apply NoDup_without_duplicates.
    unfold without_duplicates. rewrite unique_from_app, app_nil_r, filter_app.
    rewrite (unique_from_NoDup [] _ Hnd) by (intros; apply not_elem_of_nil).
    rewrite (filter_all _ (collected_subdomains st)) by (intros y Hy ->; contradiction).
    rewrite filter_none; [apply app_nil_r|].
    intros y Hy Hne. apply elem_of_unique_from in Hy as [Hy Hnew].
    destruct (Hold y Hy); contradiction. }
  destruct Hs as [Hs1 Hs2]. split; [exact Hs1|]. split; [exact Hs2|].
  unfold run. now rewrite Hs1.
Qed.

Lemma run_page_without_news_witness :
  collected_subdomains
    (turns sample_meta {| domain := "example.com"; exclude_subdomains := None |}
           (always_finds ["http://a.example.com/"; "example.com/"]) 2 start)
  = ["a.example.com"].
Proof.
  destruct (run_page_without_news sample_meta
              {| domain := "example.com"; exclude_subdomains := None |}
              (always_finds ["http://a.example.com/"; "example.com/"]) 1
              ["http://a.example.com/"; "example.com/"]
              "a.example.com" ["example.com"]) as (_ & E & _).
  - reflexivity.
  - reflexivity.
  - vm_compute. reflexivity.
  - intros y Hy. apply list_elem_of_In in Hy. simpl in Hy.
    destruct Hy as [<-|[<-|[]]]; [left | right; reflexivity].
    apply list_elem_of_In. vm_compute. tauto.
  - exact E.
Defined.
